(** * tzxit: decoding of TZX tape blocks and DSK track records

    A shallow embedding of the block and track decoders of the repository
    (packages [blocks], [tzx] and [dsk]) together with the tape control-flow
    resolver described by the specification, and the properties of the
    specification checked against them.

    Conventions.
    - Go's fixed-width unsigned integers ([uint8], [uint16], [uint32]) are
      values of [Z] inside their range; [int] is the 64-bit signed integer
      and its wrap-around is written [int_wrap].
    - A byte stream is a [list byte]; fixed arrays ([[13]byte]) are lists of
      the array's length, slices are lists.
    - A method with a pointer receiver takes the receiver and returns the
      updated receiver; a method that returns [error] returns an
      [option error] next to it, so that the receiver state reached when
      the error is returned stays visible. *)

From Stdlib Require Import ZArith Strings.Byte String Lia.
From Stdlib Require Import Ascii DecimalString.
From stdpp Require Import base list.

Local Open Scope Z_scope.

(** ** Integers *)

(** Value of a byte as a [uint8]. *)
Definition u8 (b : byte) : Z := Z.of_N (Byte.to_N b).

(** Little-endian [uint16] and [uint32] built from their bytes. *)
Definition le16 (b0 b1 : byte) : Z :=
  Z.lor (u8 b0) (Z.shiftl (u8 b1) 8).

Definition le32 (b0 b1 b2 b3 : byte) : Z :=
  Z.lor (Z.lor (u8 b0) (Z.shiftl (u8 b1) 8))
        (Z.lor (Z.shiftl (u8 b2) 16) (Z.shiftl (u8 b3) 24)).

(** Go's [int] on a 64-bit target: two's-complement wrap-around. *)
Definition int_wrap (z : Z) : Z := (z + 2 ^ 63) mod 2 ^ 64 - 2 ^ 63.

(** The signed reading of a 16-bit word ([int16(w)] in Go). *)
Definition int16_of_word (w : Z) : Z :=
  if w <? 2 ^ 15 then w else w - 2 ^ 16.

(** The little-endian 16-bit words that a byte sequence encodes, in the
    order of the input. *)
Fixpoint words_le16 (bs : list byte) : list Z :=
  match bs with
  | b0 :: b1 :: bs' => le16 b0 b1 :: words_le16 bs'
  | _ => []
  end.

(** ** Errors *)

(** Go [error] values: the reader's own errors and the wrappers of
    [github.com/pkg/errors]. *)
Inductive error : Type :=
| ErrUnexpectedEOF
| ErrNegativeCount
| ErrOther (msg : string)
| Wrap (cause : error) (msg : string)
| Wrapf (cause : error) (format : string) (arg : Z).

(** ** The byte reader *)

Module storage.

(** Modelled from the spec: the byte reader ([storage.Reader], and
    [tape.File] of the older package layout), whose source is not part of
    the tree.  It is a sequential cursor over a byte source: [pos] counts
    the bytes consumed so far and [rest] holds the bytes still to come. *)
Record Reader : Type := mkReader { pos : Z; rest : list byte }.

(** A read either yields a value and the advanced reader, or the reader
    reports an error through a method that has no [error] result, which
    ends the decode ([None]). *)
Definition M (A : Type) : Type := Reader -> option (A * Reader).

Definition ret {A : Type} (a : A) : M A := fun r => Some (a, r).

Definition bind {A B : Type} (m : M A) (k : A -> M B) : M B :=
  fun r => match m r with
           | Some (a, r') => k a r'
           | None => None
           end.

Definition remaining (r : Reader) : Z := Z.of_nat (length (rest r)).

Definition advance (n : nat) (r : Reader) : Reader :=
  {| pos := pos r + Z.of_nat n; rest := drop n (rest r) |}.

(** Modelled from the spec: a fixed-size read; it reports an error when
    fewer bytes remain than requested. *)
Definition ReadNextBytes (number : Z) : M (list byte) :=
  fun r =>
    if (0 <=? number) && (number <=? remaining r)
    then Some (take (Z.to_nat number) (rest r), advance (Z.to_nat number) r)
    else None.

(** Modelled from the spec: a single-byte read. *)
Definition ReadByte : M Z :=
  fun r => match rest r with
           | b :: _ => Some (u8 b, advance 1 r)
           | [] => None
           end.

(** Modelled from the spec: a little-endian 16-bit read. *)
Definition ReadShort : M Z :=
  fun r => match rest r with
           | b0 :: b1 :: _ => Some (le16 b0 b1, advance 2 r)
           | _ => None
           end.

(** Modelled from the spec: a little-endian 32-bit read. *)
Definition ReadLong : M Z :=
  fun r => match rest r with
           | b0 :: b1 :: b2 :: b3 :: _ => Some (le32 b0 b1 b2 b3, advance 4 r)
           | _ => None
           end.

(** Modelled from the spec: discarding [n] bytes, with the result type of
    the call site ([discarded int, err error]).  An error is reported
    when fewer bytes remain than requested; a negative count is an error
    and discards nothing; a count of zero is always satisfied. *)
Definition Discard (n : Z) : M (Z * option error) :=
  fun r =>
    if n <? 0 then Some ((0, Some ErrNegativeCount), r)
    else if n <=? remaining r
         then Some ((n, None), advance (Z.to_nat n) r)
         else Some ((remaining r, Some ErrUnexpectedEOF),
                    advance (length (rest r)) r).

End storage.

Module tape.

(** Modelled from the spec: [tape.File] offers the same cursor under the
    method names [ReadBytes] and [ReadLong]. *)
Definition File : Type := storage.Reader.

Definition ReadBytes (length : Z) : storage.M (list byte) :=
  storage.ReadNextBytes length.

Definition ReadLong : storage.M Z := storage.ReadLong.

End tape.

Notation "'let*' x ':=' m 'in' k" :=
  (storage.bind m (fun x => k))
  (at level 10, x pattern, m at level 100, k at level 200).

(** ** Package blocks: CallSequence *)

Module blocks.

Record CallSequence : Type := mkCallSequence {
  Count : Z;          (* uint16: number of calls to be made *)
  Blocks : list Z     (* []uint16: call block numbers *)
}.

(** The zero value of the struct. *)
Definition CallSequence_zero : CallSequence :=
  {| Count := 0; Blocks := [] |}.

(** The body of the [for] loop of [Read], for the [n] iterations left:
    [c.Blocks = append(c.Blocks, reader.ReadShort())]. *)
Fixpoint CallSequence_Read_loop (n : nat) (c : CallSequence)
  : storage.M CallSequence :=
  match n with
  | O => storage.ret c
  | S n' =>
      let* w := storage.ReadShort in
      CallSequence_Read_loop n'
        {| Count := Count c; Blocks := Blocks c ++ [w] |}
  end.

(** [func (c *CallSequence) Read(reader *storage.Reader)] *)
Definition CallSequence_Read (c : CallSequence) : storage.M CallSequence :=
  let* n := storage.ReadShort in
  let c := {| Count := n; Blocks := Blocks c |} in
  CallSequence_Read_loop (Z.to_nat (Count c)) c.

(** [fmt]'s [%d] verb: the decimal digits of an integer, with a minus sign
    for a negative one. *)
Definition decimal (z : Z) : string := NilZero.string_of_int (Z.to_int z).

(** The string ["\n"]. *)
Definition newline : string := String "010"%char EmptyString.

(** [func (c CallSequence) Name() string] *)
Definition CallSequence_Name (c : CallSequence) : string := "Call Sequence".

(** [func (c CallSequence) ToString() string]: the name on a line of its
    own, then the loop [str += fmt.Sprintf(" - %d\n", b)] over [Blocks]. *)
Definition CallSequence_ToString (c : CallSequence) : string :=
  fold_left
    (fun str b => (str ++ (" - " ++ decimal b ++ newline))%string)
    (Blocks c)
    (CallSequence_Name c ++ newline)%string.

(** The number of line ends in a string. *)
Fixpoint count_newlines (s : string) : nat :=
  match s with
  | EmptyString => O
  | String a s' =>
      ((if Ascii.eqb a "010"%char then 1 else 0) + count_newlines s')%nat
  end.

End blocks.

(** ** Package tzx: CustomInfo *)

Module tzx.

Record CustomInfo : Type := mkCustomInfo {
  Identification : list byte;  (* [10]byte: identification string *)
  Length : Z;                  (* uint32: length of the custom info *)
  Info : list byte             (* []uint8: custom info *)
}.

(** The zero value of the struct. *)
Definition CustomInfo_zero : CustomInfo :=
  {| Identification := replicate 10 x00; Length := 0; Info := [] |}.

(** [for i, b := range src { arr[i] = b }], from index [i] on.  An index
    outside the array is a run-time panic ([None]). *)
Fixpoint range_assign (i : nat) (src arr : list byte) : option (list byte) :=
  match src with
  | [] => Some arr
  | b :: src' =>
      if (i <? length arr)%nat
      then range_assign (S i) src' (<[i:=b]> arr)
      else None
  end.

(** [for _, b := range src { info = append(info, b) }] *)
Definition range_append (src info : list byte) : list byte :=
  fold_left (fun acc b => acc ++ [b]) src info.

(** [func (c *CustomInfo) Read(file *tape.File)] *)
Definition CustomInfo_Read (c : CustomInfo) : storage.M CustomInfo :=
  let* ident := tape.ReadBytes 10 in
  fun file =>
    match range_assign 0 ident (Identification c) with
    | None => None
    | Some arr =>
        (let* len := tape.ReadLong in
         let* info := tape.ReadBytes len in
         storage.ret {| Identification := arr;
                        Length := len;
                        Info := range_append info (Info c) |}) file
    end.

Record GlueBlock : Type := mkGlueBlock {
  Value : list byte   (* [9]byte: "XTape!", 0x1A, major, minor *)
}.

(** The zero value of the struct. *)
Definition GlueBlock_zero : GlueBlock := {| Value := replicate 9 x00 |}.

(** [func (g *GlueBlock) Read(file *tape.File)] *)
Definition GlueBlock_Read (g : GlueBlock) : storage.M GlueBlock :=
  let* value := tape.ReadBytes 9 in
  fun file =>
    match range_assign 0 value (Value g) with
    | None => None
    | Some arr => Some ({| Value := arr |}, file)
    end.

End tzx.

(** ** Package dsk: TrackInformation *)

Module dsk.

Definition trackInformationBlockSize : Z := 24.
Definition sectorDataStartAddress : Z := 0x0100.

(** The sector descriptor [SectorInformation], its methods [Read] and
    [DataRead] and the constant [sectorInformationBlockSize] are declared
    in a file that is not part of the tree: the track decoder is
    parametrised by them.  [SectorInformation_Read] is the method with a
    pointer receiver (the descriptor after the call and the [error]);
    [SectorInformation_DataRead] returns the payload and the [error]. *)
Class SectorOps (SectorInformation : Type) : Type := {
  sectorInformationBlockSize : Z;
  SectorInformation_zero : SectorInformation;
  SectorInformation_Read :
    SectorInformation -> storage.M (SectorInformation * option error);
  SectorInformation_DataRead :
    SectorInformation -> storage.M (list byte * option error)
}.

Record TrackInformation (SectorInformation : Type) : Type :=
  mkTrackInformation {
    Identifier : list byte;            (* [13]byte *)
    Unused1 : list byte;               (* [3]byte *)
    Track : Z;                         (* uint8: track number *)
    Side : Z;                          (* uint8: side number *)
    Unused2 : list byte;               (* [2]byte *)
    SectorSize : Z;                    (* uint8: sector size *)
    SectorsCount : Z;                  (* uint8: number of sectors *)
    GapLength : Z;                     (* uint8: GAP#3 length *)
    FillerByte : Z;                    (* uint8: filler byte *)
    Sectors : list SectorInformation;  (* sector information list *)
    Data : list (list byte)            (* sector data *)
  }.

Arguments mkTrackInformation {SectorInformation}.
Arguments Identifier {SectorInformation}.
Arguments Unused1 {SectorInformation}.
Arguments Track {SectorInformation}.
Arguments Side {SectorInformation}.
Arguments Unused2 {SectorInformation}.
Arguments SectorSize {SectorInformation}.
Arguments SectorsCount {SectorInformation}.
Arguments GapLength {SectorInformation}.
Arguments FillerByte {SectorInformation}.
Arguments Sectors {SectorInformation}.
Arguments Data {SectorInformation}.

(** Go's built-in [copy(dst, src)]: the first [min(len(dst), len(src))]
    elements of [dst] are overwritten. *)
Definition copy (dst src : list byte) : list byte :=
  take (length dst) src ++ drop (length src) dst.

Section TrackDecoder.

Context {SectorInformation : Type} `{SectorOps SectorInformation}.

Local Abbreviation TrackInfo := (TrackInformation SectorInformation).

(** The zero value of the struct. *)
Definition TrackInformation_zero : TrackInfo :=
  {| Identifier := replicate 13 x00; Unused1 := replicate 3 x00;
     Track := 0; Side := 0; Unused2 := replicate 2 x00;
     SectorSize := 0; SectorsCount := 0; GapLength := 0; FillerByte := 0;
     Sectors := []; Data := [] |}.

Definition set_Sectors (t : TrackInfo) (ss : list SectorInformation)
  : TrackInfo :=
  {| Identifier := Identifier t; Unused1 := Unused1 t; Track := Track t;
     Side := Side t; Unused2 := Unused2 t; SectorSize := SectorSize t;
     SectorsCount := SectorsCount t; GapLength := GapLength t;
     FillerByte := FillerByte t; Sectors := ss; Data := Data t |}.

Definition set_Data (t : TrackInfo) (d : list (list byte)) : TrackInfo :=
  {| Identifier := Identifier t; Unused1 := Unused1 t; Track := Track t;
     Side := Side t; Unused2 := Unused2 t; SectorSize := SectorSize t;
     SectorsCount := SectorsCount t; GapLength := GapLength t;
     FillerByte := FillerByte t; Sectors := Sectors t; Data := d |}.

(** The ten field assignments that open [Read] (the track header). *)
Definition TrackInformation_readHeader (t : TrackInfo)
  : storage.M TrackInfo :=
  let* ident := storage.ReadNextBytes 13 in
  let* un1 := storage.ReadNextBytes 3 in
  let* track := storage.ReadByte in
  let* side := storage.ReadByte in
  let* un2 := storage.ReadNextBytes 2 in
  let* size := storage.ReadByte in
  let* count := storage.ReadByte in
  let* gap := storage.ReadByte in
  let* filler := storage.ReadByte in
  storage.ret
    {| Identifier := copy (Identifier t) ident;
       Unused1 := copy (Unused1 t) un1;
       Track := track; Side := side;
       Unused2 := copy (Unused2 t) un2;
       SectorSize := size; SectorsCount := count;
       GapLength := gap; FillerByte := filler;
       Sectors := Sectors t; Data := Data t |}.

(** The loop of [readSectorInformationBlocks] at index [i], with [n]
    iterations left. *)
Fixpoint readSectorInformationBlocks_loop (n : nat) (i : Z) (t : TrackInfo)
  : storage.M (TrackInfo * option error) :=
  match n with
  | O => storage.ret (t, None)
  | S n' =>
      let* (sector, err) := SectorInformation_Read SectorInformation_zero in
      match err with
      | Some e =>
          storage.ret (t, Some (Wrapf e "error reading sector #%d" (i + 1)))
      | None =>
          readSectorInformationBlocks_loop n' (i + 1)
            (set_Sectors t (Sectors t ++ [sector]))
      end
  end.

(** [func (t *TrackInformation) readSectorInformationBlocks(reader)] *)
Definition readSectorInformationBlocks (t : TrackInfo)
  : storage.M (TrackInfo * option error) :=
  readSectorInformationBlocks_loop (Z.to_nat (SectorsCount t)) 0 t.

(** [func (t TrackInformation) setBufferToDataAddress(reader)] *)
Definition setBufferToDataAddress (t : TrackInfo)
  : storage.M (option error) :=
  let blockSize := int_wrap (SectorsCount t * sectorInformationBlockSize) in
  let usedBytes := int_wrap (trackInformationBlockSize + blockSize) in
  let* (_, err) :=
    storage.Discard (int_wrap (sectorDataStartAddress - usedBytes)) in
  match err with
  | Some e =>
      storage.ret (Some (Wrap e "error moving reader position to 0x0100"))
  | None => storage.ret None
  end.

(** The loop of [readSectorData] over the descriptors [ss] still to
    visit, at index [i]. *)
Fixpoint readSectorData_loop (i : Z) (ss : list SectorInformation)
  (t : TrackInfo) : storage.M (TrackInfo * option error) :=
  match ss with
  | [] => storage.ret (t, None)
  | s :: ss' =>
      let* (data, err) := SectorInformation_DataRead s in
      match err with
      | Some e =>
          storage.ret (t, Some (Wrapf e "error reading sector #%d" i))
      | None =>
          readSectorData_loop (i + 1) ss' (set_Data t (Data t ++ [data]))
      end
  end.

(** [func (t *TrackInformation) readSectorData(reader)] *)
Definition readSectorData (t : TrackInfo)
  : storage.M (TrackInfo * option error) :=
  readSectorData_loop 0 (Sectors t) t.

(** What [Read] does once the header fields are assigned: the three
    steps, each of which returns its error at once. *)
Definition TrackInformation_readBody (t : TrackInfo)
  : storage.M (TrackInfo * option error) :=
  let* (t, err) := readSectorInformationBlocks t in
  match err with
  | Some e => storage.ret (t, Some e)
  | None =>
      let* err := setBufferToDataAddress t in
      match err with
      | Some e => storage.ret (t, Some e)
      | None =>
          let* (t, err) := readSectorData t in
          match err with
          | Some e => storage.ret (t, Some e)
          | None => storage.ret (t, None)
          end
      end
  end.

(** [func (t *TrackInformation) Read(reader *storage.Reader) error] *)
Definition TrackInformation_Read (t : TrackInfo)
  : storage.M (TrackInfo * option error) :=
  let* t := TrackInformation_readHeader t in
  TrackInformation_readBody t.

(** [descriptor_chain r ss r']: from reader state [r], the descriptors
    [ss] are read one after the other without error, each read starting
    where the previous one stopped, and the reader is left at [r']. *)
Inductive descriptor_chain
  : storage.Reader -> list SectorInformation -> storage.Reader -> Prop :=
| descriptor_chain_nil r : descriptor_chain r [] r
| descriptor_chain_cons r s r1 ss r2 :
    SectorInformation_Read SectorInformation_zero r = Some ((s, None), r1) ->
    descriptor_chain r1 ss r2 ->
    descriptor_chain r (s :: ss) r2.

(** [payload_chain r ss ds r']: from reader state [r], the payloads [ds]
    of the descriptors [ss] are read one after the other without error,
    in the order of [ss], each read starting where the previous one
    stopped, and the reader is left at [r']. *)
Inductive payload_chain
  : storage.Reader -> list SectorInformation -> list (list byte) ->
    storage.Reader -> Prop :=
| payload_chain_nil r : payload_chain r [] [] r
| payload_chain_cons r s d r1 ss ds r2 :
    SectorInformation_DataRead s r = Some ((d, None), r1) ->
    payload_chain r1 ss ds r2 ->
    payload_chain r (s :: ss) (d :: ds) r2.

End TrackDecoder.

End dsk.


(** ** A concrete sector descriptor *)

Module dsk_sector.

(** Modelled from the spec: the sector descriptor, "fixed-size metadata
    entry describing one sector's identity and size within a track", which
    the tree uses but does not declare.  The layout is the DSK format's
    eight bytes: track, side, sector id, size code, two controller status
    bytes and two unused bytes. *)
Record SectorInformation : Type := mkSectorInformation {
  Track : Z;
  Side : Z;
  SectorID : Z;
  Size : Z;
  FDCStatus1 : Z;
  FDCStatus2 : Z;
  Unused : list byte
}.

Definition SectorInformation_zero : SectorInformation :=
  {| Track := 0; Side := 0; SectorID := 0; Size := 0;
     FDCStatus1 := 0; FDCStatus2 := 0; Unused := replicate 2 x00 |}.

(** Modelled from the spec: the size of one descriptor in the stream. *)
Definition sectorInformationBlockSize : Z := 8.

(** Modelled from the spec: the payload size "derived from" the size code;
    the DSK format's [128 * 2^N]. *)
Definition SectorByteSize (s : SectorInformation) : Z :=
  Z.shiftl 0x80 (Size s).

(** Modelled from the spec: reading one descriptor.  The method returns an
    [error]: a descriptor that the stream cannot supply in full is reported
    through it and nothing is consumed. *)
Definition SectorInformation_Read (s : SectorInformation)
  : storage.M (SectorInformation * option error) :=
  fun r =>
    if storage.remaining r <? sectorInformationBlockSize
    then Some ((s, Some ErrUnexpectedEOF), r)
    else
      (let* track := storage.ReadByte in
       let* side := storage.ReadByte in
       let* id := storage.ReadByte in
       let* size := storage.ReadByte in
       let* st1 := storage.ReadByte in
       let* st2 := storage.ReadByte in
       let* un := storage.ReadNextBytes 2 in
       storage.ret
         ({| Track := track; Side := side; SectorID := id; Size := size;
             FDCStatus1 := st1; FDCStatus2 := st2;
             Unused := dsk.copy (Unused s) un |}, None)) r.

(** Modelled from the spec: reading one sector payload, of the size derived
    from the size code; a short stream is reported through the [error]. *)
Definition SectorInformation_DataRead (s : SectorInformation)
  : storage.M (list byte * option error) :=
  fun r =>
    if storage.remaining r <? SectorByteSize s
    then Some (([], Some ErrUnexpectedEOF), r)
    else
      (let* data := storage.ReadNextBytes (SectorByteSize s) in
       storage.ret (data, None)) r.

#[global] Instance dsk_SectorOps : dsk.SectorOps SectorInformation := {|
  dsk.sectorInformationBlockSize := sectorInformationBlockSize;
  dsk.SectorInformation_zero := SectorInformation_zero;
  dsk.SectorInformation_Read := SectorInformation_Read;
  dsk.SectorInformation_DataRead := SectorInformation_DataRead
|}.

End dsk_sector.

(** ** The tape control-flow resolver *)

Module resolver.

(** Modelled from the spec: the blocks of a Tape Directory as the resolver
    sees them.  The tree only declares the block identifiers; the control
    variants carry the fields the specification gives them and every other
    variant is data-only. *)
Inductive Block : Type :=
| DataBlock (id : Z)
| JumpTo (offset : Z)
| LoopStart (count : Z)
| LoopEnd
| CallSequence (offsets : list Z)
| ReturnFromSequence
| Select (candidates : list (string * Z)).

(** Modelled from the spec: the resolution errors of the error taxonomy;
    [StepLimitExceeded] is the caller-supplied maximum step count. *)
Inductive ResolveError : Type :=
| NestedLoopNotAllowed
| InvalidLoopCount
| NestedCallNotAllowed
| ReturnWithoutCall
| UnresolvedJumpTarget
| StepLimitExceeded.

(** Modelled from the spec: the resolver's state, "(current index, call
    stack of saved return positions, active-loop stack of (start index,
    remaining count))". *)
Record State : Type := mkState {
  index : Z;
  calls : list Z;
  loops : list (Z * Z)
}.

(** Modelled from the spec: "initial state = index 0, empty stacks". *)
Definition initial : State := {| index := 0; calls := []; loops := [] |}.

(** Modelled from the spec: the outcome of one transition.  A data block
    is played, a control block only moves the position, a position outside
    the directory is the normal end of the tape, a violated rule is an
    error. *)
Inductive Step : Type :=
| Play (i : Z) (next : State)
| Move (next : State)
| EndOfTape
| Failed (e : ResolveError).

(** Modelled from the spec: the directory entry at a position, if the
    position is inside [0, len(directory)). *)
Definition block_at (dir : list Block) (i : Z) : option Block :=
  if i <? 0 then None else dir !! Z.to_nat i.

(** The state [st] moved to position [i]. *)
Definition goto (st : State) (i : Z) : State :=
  {| index := i; calls := calls st; loops := loops st |}.

(** Modelled from the spec: a redirected position must lie inside the
    directory ([UnresolvedJumpTarget] otherwise). *)
Definition jump (dir : list Block) (st : State) (target : Z) : Step :=
  match block_at dir target with
  | Some _ => Move (goto st target)
  | None => Failed UnresolvedJumpTarget
  end.

(** Modelled from the spec: the transitions of section 4.2.  Where the
    specification is silent the block is a no-op: a [LoopEnd] outside a
    loop and a [CallSequence] without offsets advance by one.  A
    [CallSequence] saves the positions of its further targets and then the
    position after itself; each [ReturnFromSequence] resumes at the next
    saved position. *)
Definition step (dir : list Block) (choose : Z -> option nat) (st : State)
  : Step :=
  let i := index st in
  match block_at dir i with
  | None => EndOfTape
  | Some (DataBlock _) => Play i (goto st (i + 1))
  | Some (JumpTo offset) =>
      if (offset =? 0) || (offset =? 1) then Move (goto st (i + 1))
      else jump dir st (i + offset)
  | Some (LoopStart count) =>
      match loops st with
      | _ :: _ => Failed NestedLoopNotAllowed
      | [] =>
          if count =? 0 then Failed InvalidLoopCount
          else Move {| index := i + 1; calls := calls st;
                       loops := [(i, count)] |}
      end
  | Some LoopEnd =>
      match loops st with
      | [] => Move (goto st (i + 1))
      | (start, remaining) :: ls =>
          if 1 <? remaining
          then Move {| index := start + 1; calls := calls st;
                       loops := (start, remaining - 1) :: ls |}
          else Move {| index := i + 1; calls := calls st; loops := ls |}
      end
  | Some (CallSequence offsets) =>
      match calls st with
      | _ :: _ => Failed NestedCallNotAllowed
      | [] =>
          match offsets with
          | [] => Move (goto st (i + 1))
          | o :: os =>
              jump dir
                {| index := i;
                   calls := map (fun o' => i + o') os ++ [i + 1];
                   loops := loops st |}
                (i + o)
          end
      end
  | Some ReturnFromSequence =>
      match calls st with
      | [] => Failed ReturnWithoutCall
      | p :: ps => Move {| index := p; calls := ps; loops := loops st |}
      end
  | Some (Select candidates) =>
      match candidates !! default 0%nat (choose i) with
      | Some (_, offset) => jump dir st (i + offset)
      | None => Failed UnresolvedJumpTarget
      end
  end.

(** Modelled from the spec: the effective play order, the directory
    indices played from state [st] within [fuel] steps. *)
Fixpoint play_order_from (fuel : nat) (dir : list Block)
  (choose : Z -> option nat) (st : State) : ResolveError + list Z :=
  match fuel with
  | O => inl StepLimitExceeded
  | S fuel' =>
      match step dir choose st with
      | EndOfTape => inr []
      | Failed e => inl e
      | Move st' => play_order_from fuel' dir choose st'
      | Play i st' =>
          match play_order_from fuel' dir choose st' with
          | inr ixs => inr (i :: ixs)
          | inl e => inl e
          end
      end
  end.

(** Modelled from the spec: the effective play order of a directory, from
    the initial state. *)
Definition play_order (fuel : nat) (dir : list Block)
  (choose : Z -> option nat) : ResolveError + list Z :=
  play_order_from fuel dir choose initial.

(** The indices [ixs] played before whatever [res] goes on to play. *)
Definition prepend (ixs : list Z) (res : ResolveError + list Z)
  : ResolveError + list Z :=
  match res with
  | inr tl => inr (ixs ++ tl)
  | inl e => inl e
  end.

(** The entry at index [k] is a data-only block. *)
Definition data_only (dir : list Block) (k : Z) : Prop :=
  exists id : Z, block_at dir k = Some (DataBlock id).

(** The blocks at a list of directory indices. *)
Definition blocks_at (dir : list Block) (ixs : list Z) : list (option Block) :=
  map (block_at dir) ixs.

End resolver.


(** ** Sample streams *)

Module samples.

(** A track header that declares [count] sectors: the identifier
    "Track-Info", track 1, side 0, size code 0, gap 0x4e, filler 0xe5. *)
Definition header (count : byte) : list byte :=
  [x54; x72; x61; x63; x6b; x2d; x49; x6e; x66; x6f; x0d; x0a; x00]
  ++ [x00; x00; x00] ++ [x01; x00] ++ [x00; x00]
  ++ [x00; count; x4e; xe5].

(** The descriptor of sector [id] on track 1, side 0, with size code 0
    (128 bytes of payload). *)
Definition descriptor (id : byte) : list byte :=
  [x01; x00; id; x00; x00; x00; x00; x00].

Definition sector (id : byte) : dsk_sector.SectorInformation :=
  {| dsk_sector.Track := 1; dsk_sector.Side := 0;
     dsk_sector.SectorID := u8 id; dsk_sector.Size := 0;
     dsk_sector.FDCStatus1 := 0; dsk_sector.FDCStatus2 := 0;
     dsk_sector.Unused := [x00; x00] |}.

(** The receiver once the header that declares [count] sectors is read. *)
Definition after_header (count : byte)
  : dsk.TrackInformation dsk_sector.SectorInformation :=
  {| dsk.Identifier :=
       [x54; x72; x61; x63; x6b; x2d; x49; x6e; x66; x6f; x0d; x0a; x00];
     dsk.Unused1 := [x00; x00; x00];
     dsk.Track := 1; dsk.Side := 0;
     dsk.Unused2 := [x00; x00];
     dsk.SectorSize := 0; dsk.SectorsCount := u8 count;
     dsk.GapLength := 0x4e; dsk.FillerByte := 0xe5;
     dsk.Sectors := []; dsk.Data := [] |}.

(** A complete track of two sectors, followed by one more byte. *)
Definition track_2 : list byte :=
  header x02 ++ descriptor xc1 ++ descriptor xc2
  ++ replicate 216 x00
  ++ replicate 128 xe5 ++ replicate 128 x1a ++ [x99].

(** What decoding [track_2] yields. *)
Definition track_2_decoded
  : dsk.TrackInformation dsk_sector.SectorInformation :=
  dsk.set_Data
    (dsk.set_Sectors (after_header x02) [sector xc1; sector xc2])
    [replicate 128 xe5; replicate 128 x1a].

(** A track of two declared sectors whose second descriptor is cut short. *)
Definition track_2_short_descriptor : list byte :=
  header x02 ++ descriptor xc1 ++ [x01; x00; xc2].

(** A track of two sectors whose second payload is cut short. *)
Definition track_2_short_payload : list byte :=
  header x02 ++ descriptor xc1 ++ descriptor xc2
  ++ replicate 216 x00
  ++ replicate 128 xe5 ++ [x1a; x1a; x1a; x1a; x1a].

(** A complete track of 29 sectors: the descriptor table ends exactly at
    offset 0x100. *)
Definition track_29 : list byte :=
  header x1d ++ concat (replicate 29 (descriptor xc1))
  ++ replicate (29 * 128) xe5.

(** What decoding [track_29] yields. *)
Definition track_29_decoded
  : dsk.TrackInformation dsk_sector.SectorInformation :=
  dsk.set_Data
    (dsk.set_Sectors (after_header x1d) (replicate 29 (sector xc1)))
    (replicate 29 (replicate 128 xe5)).

(** A track that declares 30 sectors: the descriptor table ends beyond
    offset 0x100. *)
Definition track_30 : list byte :=
  header x1e ++ concat (replicate 30 (descriptor xc1))
  ++ replicate 128 xe5.





(** A track that declares no sector, followed by two bytes. *)
Definition track_0 : list byte :=
  header x00 ++ replicate 232 x00 ++ [xaa; xbb].

End samples.

(** * Properties *)

(** ** Integers *)

Lemma u8_range (b : byte) : 0 <= u8 b < 256.
Proof. unfold u8. pose proof (Byte.to_N_bounded b). lia. Qed.

Lemma lor_shiftl_add (a b n : Z) :
  0 <= n -> 0 <= a < 2 ^ n -> Z.lor a (Z.shiftl b n) = a + b * 2 ^ n.
Proof.
  intros Hn Ha.
  rewrite <- Z.shiftl_mul_pow2 by lia.
  rewrite <- Z.lxor_lor, Z.add_nocarry_lxor; trivial.
  all: apply Z.bits_inj'; intros k Hk; rewrite Z.land_spec, Z.bits_0.
  all: destruct (Z.lt_ge_cases k n) as [Hlt|Hge].
  all: try (rewrite Z.shiftl_spec_low by lia; apply andb_false_r).
  all: destruct (Z.eq_dec a 0) as [->|Hne]; [now rewrite Z.bits_0|].
  all: rewrite (Z.bits_above_log2 a k); [reflexivity|lia|].
  all: apply Z.log2_lt_pow2; try lia.
  all: apply Z.lt_le_trans with (2 ^ n); [lia|]; apply Z.pow_le_mono_r; lia.
Qed.

Lemma le16_add (b0 b1 : byte) : le16 b0 b1 = u8 b0 + 256 * u8 b1.
Proof.
  unfold le16. pose proof (u8_range b0). rewrite lor_shiftl_add; lia.
Qed.

Lemma le16_range (b0 b1 : byte) : 0 <= le16 b0 b1 < 2 ^ 16.
Proof.
  rewrite le16_add. pose proof (u8_range b0). pose proof (u8_range b1). lia.
Qed.

Lemma le32_add (b0 b1 b2 b3 : byte) :
  le32 b0 b1 b2 b3 = u8 b0 + 256 * u8 b1 + 65536 * u8 b2 + 16777216 * u8 b3.
Proof.
  unfold le32.
  pose proof (u8_range b0). pose proof (u8_range b1).
  pose proof (u8_range b2). pose proof (u8_range b3).
  replace (Z.lor (Z.shiftl (u8 b2) 16) (Z.shiftl (u8 b3) 24))
    with (Z.shiftl (Z.lor (u8 b2) (Z.shiftl (u8 b3) 8)) 16)
    by (rewrite Z.shiftl_lor, Z.shiftl_shiftl by lia; reflexivity).
  rewrite (lor_shiftl_add (u8 b0)) by lia.
  rewrite (lor_shiftl_add (u8 b2)) by lia.
  rewrite lor_shiftl_add by lia. lia.
Qed.

Lemma le32_range (b0 b1 b2 b3 : byte) : 0 <= le32 b0 b1 b2 b3 < 2 ^ 32.
Proof.
  rewrite le32_add.
  pose proof (u8_range b0). pose proof (u8_range b1).
  pose proof (u8_range b2). pose proof (u8_range b3). lia.
Qed.

(** ** The byte reader *)

Lemma ReadNextBytes_app (bs tail : list byte) (p n : Z) :
  n = Z.of_nat (length bs) ->
  storage.ReadNextBytes n (storage.mkReader p (bs ++ tail))
  = Some (bs, storage.mkReader (p + n) tail).
Proof.
  intros ->. unfold storage.ReadNextBytes, storage.remaining, storage.advance.
  cbn [storage.rest storage.pos].
  rewrite length_app, Nat2Z.id.
  rewrite (proj2 (Z.leb_le 0 _)) by lia.
  rewrite (proj2 (Z.leb_le (Z.of_nat (length bs)) _)) by lia.
  cbn [andb]. now rewrite take_app_length, drop_app_length.
Qed.

Lemma ReadNextBytes_reader (n : Z) (r r' : storage.Reader) (bs : list byte) :
  storage.ReadNextBytes n r = Some (bs, r') ->
  0 <= n /\ storage.rest r = bs ++ storage.rest r'
  /\ Z.of_nat (length bs) = n /\ storage.pos r' = storage.pos r + n.
Proof.
  unfold storage.ReadNextBytes, storage.remaining, storage.advance.
  destruct (0 <=? n) eqn:H0; [|discriminate].
  destruct (n <=? _) eqn:H1; [|discriminate].
  cbn [andb]. intros [= <- <-]. cbn [storage.rest storage.pos].
  rewrite take_drop, length_take. repeat split; lia.
Qed.

Lemma ReadByte_cons (b : byte) (l : list byte) (p : Z) :
  storage.ReadByte (storage.mkReader p (b :: l))
  = Some (u8 b, storage.mkReader (p + 1) l).
Proof. reflexivity. Qed.

Lemma ReadShort_cons (b0 b1 : byte) (l : list byte) (p : Z) :
  storage.ReadShort (storage.mkReader p (b0 :: b1 :: l))
  = Some (le16 b0 b1, storage.mkReader (p + 2) l).
Proof. reflexivity. Qed.

Lemma ReadLong_cons (b0 b1 b2 b3 : byte) (l : list byte) (p : Z) :
  storage.ReadLong (storage.mkReader p (b0 :: b1 :: b2 :: b3 :: l))
  = Some (le32 b0 b1 b2 b3, storage.mkReader (p + 4) l).
Proof. reflexivity. Qed.

(** ** CallSequence *)

Lemma CallSequence_Read_loop_spec (n : nat) :
  forall (c : blocks.CallSequence) (body tail : list byte) (p : Z),
    length body = (2 * n)%nat ->
    blocks.CallSequence_Read_loop n c (storage.mkReader p (body ++ tail))
    = Some ({| blocks.Count := blocks.Count c;
               blocks.Blocks := blocks.Blocks c ++ words_le16 body |},
            storage.mkReader (p + 2 * Z.of_nat n) tail).
Proof.
  induction n as [|n IH]; intros c body tail p Hlen.
  - destruct body; [|discriminate]. cbn.
    rewrite app_nil_r, Z.add_0_r. now destruct c.
  - destruct body as [|b0 [|b1 body]]; [cbn in Hlen; lia ..|].
    cbn [blocks.CallSequence_Read_loop].
    unfold storage.bind at 1. cbn [app]. rewrite ReadShort_cons.
    rewrite IH by (cbn in Hlen; lia).
    cbn [blocks.Count blocks.Blocks words_le16].
    rewrite <- app_assoc. cbn [app].
    do 3 f_equal. lia.
Qed.

Lemma words_le16_length (body : list byte) (n : nat) :
  length body = (2 * n)%nat -> length (words_le16 body) = n.
Proof.
  revert body. induction n as [|n IH]; intros body Hlen.
  - now destruct body.
  - destruct body as [|b0 [|b1 body]]; [cbn in Hlen; lia ..|].
    cbn [words_le16 length]. f_equal. apply IH. cbn in Hlen. lia.
Qed.

(** Whatever the receiver holds, [Read] appends the decoded words to
    [Blocks]. *)
Lemma CallSequence_Read_appends (c : blocks.CallSequence) (b0 b1 : byte)
  (body tail : list byte) (p : Z) :
  Z.of_nat (length body) = 2 * le16 b0 b1 ->
  blocks.CallSequence_Read c (storage.mkReader p (b0 :: b1 :: body ++ tail))
  = Some ({| blocks.Count := le16 b0 b1;
             blocks.Blocks := blocks.Blocks c ++ words_le16 body |},
          storage.mkReader (p + (2 + 2 * le16 b0 b1)) tail).
Proof.
  intros Hlen. pose proof (le16_range b0 b1) as Hr.
  unfold blocks.CallSequence_Read, storage.bind.
  rewrite ReadShort_cons. cbn [blocks.Count blocks.Blocks].
  rewrite CallSequence_Read_loop_spec by lia.
  cbn [blocks.Count blocks.Blocks]. do 3 f_equal. lia.
Qed.

(** C1: for every input that encodes a CallSequence (a 16-bit count [N]
    followed by [2N] bytes of offsets, then anything), [CallSequence.Read]
    on a fresh block consumes exactly [2 + 2N] bytes and leaves [Blocks]
    holding exactly the [N] words of the input, in input order. *)
Theorem CallSequence_Read_consumes (b0 b1 : byte) (body tail : list byte)
  (p : Z) :
  Z.of_nat (length body) = 2 * le16 b0 b1 ->
  blocks.CallSequence_Read blocks.CallSequence_zero
    (storage.mkReader p (b0 :: b1 :: body ++ tail))
  = Some ({| blocks.Count := le16 b0 b1;
             blocks.Blocks := words_le16 body |},
          storage.mkReader (p + (2 + 2 * le16 b0 b1)) tail)
  /\ Z.of_nat (length (words_le16 body)) = le16 b0 b1.
Proof.
  intros Hlen. split.
  - now rewrite CallSequence_Read_appends.
  - pose proof (le16_range b0 b1).
    rewrite (words_le16_length body (Z.to_nat (le16 b0 b1))); lia.
Qed.

Lemma CallSequence_Read_consumes_witness :
  Z.of_nat (length [x03; x00; xfe; xff]) = 2 * le16 x02 x00
  /\ blocks.CallSequence_Read blocks.CallSequence_zero
       (storage.mkReader 0 (x02 :: x00 :: [x03; x00; xfe; xff] ++ [x27]))
     = Some ({| blocks.Count := le16 x02 x00;
                blocks.Blocks := words_le16 [x03; x00; xfe; xff] |},
             storage.mkReader (0 + (2 + 2 * le16 x02 x00)) [x27])
  /\ Z.of_nat (length (words_le16 [x03; x00; xfe; xff])) = le16 x02 x00.
Proof.
  split; [reflexivity|].
  apply (CallSequence_Read_consumes x02 x00 [x03; x00; xfe; xff] [x27] 0).
  reflexivity.
Defined.

(** The same run with the values written out: count 2, offsets 3 and
    65534, six bytes consumed. *)
Example CallSequence_Read_two_offsets :
  blocks.CallSequence_Read blocks.CallSequence_zero
    (storage.mkReader 0 [x02; x00; x03; x00; xfe; xff; x27])
  = Some ({| blocks.Count := 2; blocks.Blocks := [3; 65534] |},
          storage.mkReader 6 [x27]).
Proof. reflexivity. Qed.

(** C2: the offsets stored by [CallSequence.Read] are the raw unsigned
    16-bit words ([[]uint16]): a word with the high bit set is stored as a
    value of at least [2^15], never as a negative offset.  At the input
    [01 00 ff ff] the stored offset is [65535], whose signed reading is
    [-1]. *)
Theorem CallSequence_Read_stores_unsigned :
  blocks.CallSequence_Read blocks.CallSequence_zero
    (storage.mkReader 0 [x01; x00; xff; xff])
  = Some ({| blocks.Count := 1; blocks.Blocks := [65535] |},
          storage.mkReader 4 [])
  /\ int16_of_word 65535 = -1
  /\ forall (b0 b1 : byte) (p : Z) (tail : list byte),
       blocks.CallSequence_Read blocks.CallSequence_zero
         (storage.mkReader p (x01 :: x00 :: b0 :: b1 :: tail))
       = Some ({| blocks.Count := 1; blocks.Blocks := [le16 b0 b1] |},
               storage.mkReader (p + 4) tail)
       /\ 0 <= le16 b0 b1.
Proof.
  split; [reflexivity|]. split; [reflexivity|].
  intros b0 b1 p tail. split.
  - rewrite (CallSequence_Read_appends _ x01 x00 [b0; b1] tail p)
      by reflexivity.
    reflexivity.
  - apply le16_range.
Qed.

(** ** CustomInfo *)

Lemma range_assign_app (src : list byte) :
  forall (pre mid post : list byte),
    length mid = length src ->
    tzx.range_assign (length pre) src (pre ++ mid ++ post)
    = Some (pre ++ src ++ post).
Proof.
  induction src as [|b src IH]; intros pre mid post Hlen.
  - destruct mid; [reflexivity | discriminate].
  - destruct mid as [|m mid]; [discriminate|].
    cbn [tzx.range_assign].
    rewrite (proj2 (Nat.ltb_lt _ _))
      by (rewrite length_app; cbn [length app]; lia).
    replace (<[length pre:=b]> (pre ++ (m :: mid) ++ post))
      with ((pre ++ [b]) ++ mid ++ post).
    + replace (S (length pre)) with (length (pre ++ [b]))
        by (rewrite length_app; cbn; lia).
      rewrite IH by (cbn in Hlen; lia).
      now rewrite <- app_assoc.
    + rewrite <- app_assoc. cbn [app].
      rewrite <- (Nat.add_0_r (length pre)) at 1.
      now rewrite insert_app_r.
Qed.

Lemma range_assign_full (src arr : list byte) :
  length arr = length src -> tzx.range_assign 0 src arr = Some src.
Proof.
  intros Hlen.
  pose proof (range_assign_app src [] arr [] Hlen) as E.
  cbn [length app] in E. now rewrite !app_nil_r in E.
Qed.

Lemma range_append_app (src info : list byte) :
  tzx.range_append src info = info ++ src.
Proof.
  unfold tzx.range_append. revert info.
  induction src as [|b src IH]; intros info; cbn [fold_left].
  - now rewrite app_nil_r.
  - rewrite IH, <- app_assoc. reflexivity.
Qed.

(** What [CustomInfo.Read] does on an input that holds the whole block. *)
Lemma CustomInfo_Read_spec (c : tzx.CustomInfo) (ident : list byte)
  (l0 l1 l2 l3 : byte) (info tail : list byte) (p : Z) :
  length (tzx.Identification c) = 10%nat ->
  length ident = 10%nat ->
  Z.of_nat (length info) = le32 l0 l1 l2 l3 ->
  tzx.CustomInfo_Read c
    (storage.mkReader p (ident ++ [l0; l1; l2; l3] ++ info ++ tail))
  = Some ({| tzx.Identification := ident;
             tzx.Length := le32 l0 l1 l2 l3;
             tzx.Info := tzx.Info c ++ info |},
          storage.mkReader (p + (14 + le32 l0 l1 l2 l3)) tail).
Proof.
  intros Harr Hid Hinfo.
  unfold tzx.CustomInfo_Read, tape.ReadBytes, tape.ReadLong.
  unfold storage.bind at 1.
  rewrite ReadNextBytes_app by lia.
  rewrite range_assign_full by lia.
  unfold storage.bind at 1.
  cbn [app]. rewrite ReadLong_cons.
  unfold storage.bind.
  rewrite ReadNextBytes_app by lia.
  unfold storage.ret. rewrite range_append_app.
  do 3 f_equal. lia.
Qed.

(** C7: on an input that holds a CustomInfo block of declared length [L],
    [CustomInfo.Read] on a fresh block reads the 10 identification bytes,
    the 32-bit little-endian [L] and exactly [L] info bytes, in that order;
    it consumes [14 + L] bytes, so the cursor is at the byte after the
    block, and [len(Info) = L]. *)
Theorem CustomInfo_Read_consumes (ident : list byte) (l0 l1 l2 l3 : byte)
  (info tail : list byte) (p : Z) :
  length ident = 10%nat ->
  Z.of_nat (length info) = le32 l0 l1 l2 l3 ->
  exists c' : tzx.CustomInfo,
    tzx.CustomInfo_Read tzx.CustomInfo_zero
      (storage.mkReader p (ident ++ [l0; l1; l2; l3] ++ info ++ tail))
    = Some (c', storage.mkReader (p + (14 + le32 l0 l1 l2 l3)) tail)
    /\ tzx.Identification c' = ident
    /\ tzx.Length c' = le32 l0 l1 l2 l3
    /\ tzx.Info c' = info
    /\ Z.of_nat (length (tzx.Info c')) = le32 l0 l1 l2 l3.
Proof.
  intros Hid Hinfo. eexists. split.
  - apply CustomInfo_Read_spec; [reflexivity | exact Hid | exact Hinfo].
  - cbn. auto.
Qed.

Lemma CustomInfo_Read_consumes_witness :
  (length [x50; x4f; x4b; x45; x53; x20; x20; x20; x20; x20] = 10%nat
   /\ Z.of_nat (length [xaa; xbb; xcc]) = le32 x03 x00 x00 x00)
  /\ exists c' : tzx.CustomInfo,
       tzx.CustomInfo_Read tzx.CustomInfo_zero
         (storage.mkReader 7
            ([x50; x4f; x4b; x45; x53; x20; x20; x20; x20; x20]
             ++ [x03; x00; x00; x00] ++ [xaa; xbb; xcc] ++ [x5a]))
       = Some (c', storage.mkReader (7 + (14 + le32 x03 x00 x00 x00)) [x5a])
       /\ tzx.Identification c'
          = [x50; x4f; x4b; x45; x53; x20; x20; x20; x20; x20]
       /\ tzx.Length c' = le32 x03 x00 x00 x00
       /\ tzx.Info c' = [xaa; xbb; xcc]
       /\ Z.of_nat (length (tzx.Info c')) = le32 x03 x00 x00 x00.
Proof.
  split; [split; reflexivity|].
  apply (CustomInfo_Read_consumes
           [x50; x4f; x4b; x45; x53; x20; x20; x20; x20; x20]
           x03 x00 x00 x00 [xaa; xbb; xcc] [x5a] 7); reflexivity.
Defined.

(** C10: [CustomInfo.Read] appends to [Info]: when [Info] holds [p] bytes
    before the call and the input declares length [L], [Info] holds
    [p + L] bytes afterwards, the original [p] bytes being its prefix and
    the [L] bytes of the input following them. *)
Theorem CustomInfo_Read_appends (c : tzx.CustomInfo) (ident : list byte)
  (l0 l1 l2 l3 : byte) (info tail : list byte) (p : Z) :
  length (tzx.Identification c) = 10%nat ->
  length ident = 10%nat ->
  Z.of_nat (length info) = le32 l0 l1 l2 l3 ->
  exists c' : tzx.CustomInfo,
    tzx.CustomInfo_Read c
      (storage.mkReader p (ident ++ [l0; l1; l2; l3] ++ info ++ tail))
    = Some (c', storage.mkReader (p + (14 + le32 l0 l1 l2 l3)) tail)
    /\ tzx.Info c' = tzx.Info c ++ info
    /\ Z.of_nat (length (tzx.Info c'))
       = Z.of_nat (length (tzx.Info c)) + le32 l0 l1 l2 l3
    /\ take (length (tzx.Info c)) (tzx.Info c') = tzx.Info c.
Proof.
  intros Harr Hid Hinfo. eexists. split.
  - apply CustomInfo_Read_spec; [exact Harr | exact Hid | exact Hinfo].
  - cbn [tzx.Info]. split; [reflexivity|]. split.
    + rewrite length_app. lia.
    + apply take_app_length.
Qed.

Lemma CustomInfo_Read_appends_witness :
  let c := {| tzx.Identification := replicate 10 x41;
              tzx.Length := 2; tzx.Info := [x01; x02] |} in
  let ident := [x50; x4f; x4b; x45; x53; x20; x20; x20; x20; x20] in
  (length (tzx.Identification c) = 10%nat
   /\ length ident = 10%nat
   /\ Z.of_nat (length [xaa; xbb; xcc]) = le32 x03 x00 x00 x00)
  /\ exists c' : tzx.CustomInfo,
       tzx.CustomInfo_Read c
         (storage.mkReader 0
            (ident ++ [x03; x00; x00; x00] ++ [xaa; xbb; xcc] ++ [x5a]))
       = Some (c', storage.mkReader (0 + (14 + le32 x03 x00 x00 x00)) [x5a])
       /\ tzx.Info c' = tzx.Info c ++ [xaa; xbb; xcc]
       /\ Z.of_nat (length (tzx.Info c'))
          = Z.of_nat (length (tzx.Info c)) + le32 x03 x00 x00 x00
       /\ take (length (tzx.Info c)) (tzx.Info c') = tzx.Info c.
Proof.
  intros c ident. split; [repeat split; reflexivity|].
  apply (CustomInfo_Read_appends c ident x03 x00 x00 x00
           [xaa; xbb; xcc] [x5a] 0); reflexivity.
Defined.

(** ** TrackInformation *)

Lemma bind_Some {A B : Type} (m : storage.M A) (k : A -> storage.M B)
  (r r' : storage.Reader) (b : B) :
  storage.bind m k r = Some (b, r') ->
  exists (a : A) (r1 : storage.Reader), m r = Some (a, r1) /\ k a r1 = Some (b, r').
Proof.
  unfold storage.bind. destruct (m r) as [[a r1]|]; [|discriminate].
  intros E. now exists a, r1.
Qed.

Lemma ReadByte_reader (r r' : storage.Reader) (v : Z) :
  storage.ReadByte r = Some (v, r') ->
  0 <= v < 256 /\ storage.pos r' = storage.pos r + 1.
Proof.
  unfold storage.ReadByte. destruct (storage.rest r) as [|b l]; [discriminate|].
  intros [= <- <-]. split; [apply u8_range | reflexivity].
Qed.

Lemma int_wrap_small (z : Z) : - 2 ^ 63 <= z < 2 ^ 63 -> int_wrap z = z.
Proof. intros Hz. unfold int_wrap. rewrite Z.mod_small; lia. Qed.

Lemma copy_same_length (dst src : list byte) :
  length dst = length src -> dsk.copy dst src = src.
Proof.
  intros Hlen. unfold dsk.copy.
  rewrite Hlen, firstn_all, <- Hlen, drop_all. apply app_nil_r.
Qed.

Section TrackProperties.

Context {SectorInformation : Type} `{dsk.SectorOps SectorInformation}.

Local Abbreviation TrackInfo := (dsk.TrackInformation SectorInformation).

Lemma set_Sectors_same (t : TrackInfo) :
  dsk.set_Sectors t (dsk.Sectors t ++ []) = t.
Proof. destruct t. unfold dsk.set_Sectors. cbn. now rewrite app_nil_r. Qed.

Lemma set_Data_same (t : TrackInfo) :
  dsk.set_Data t (dsk.Data t ++ []) = t.
Proof. destruct t. unfold dsk.set_Data. cbn. now rewrite app_nil_r. Qed.

(** The header on an input that holds its 24 bytes. *)
Lemma readHeader_spec (t : TrackInfo) (ident un1 un2 : list byte)
  (track side size count gap filler : byte) (tail : list byte) (p : Z) :
  length ident = 13%nat -> length un1 = 3%nat -> length un2 = 2%nat ->
  dsk.TrackInformation_readHeader t
    (storage.mkReader p
       (ident ++ un1 ++ [track; side] ++ un2
        ++ [size; count; gap; filler] ++ tail))
  = Some ({| dsk.Identifier := dsk.copy (dsk.Identifier t) ident;
             dsk.Unused1 := dsk.copy (dsk.Unused1 t) un1;
             dsk.Track := u8 track; dsk.Side := u8 side;
             dsk.Unused2 := dsk.copy (dsk.Unused2 t) un2;
             dsk.SectorSize := u8 size; dsk.SectorsCount := u8 count;
             dsk.GapLength := u8 gap; dsk.FillerByte := u8 filler;
             dsk.Sectors := dsk.Sectors t; dsk.Data := dsk.Data t |},
          storage.mkReader (p + 24) tail).
Proof.
  intros Hid Hu1 Hu2. unfold dsk.TrackInformation_readHeader.
  unfold storage.bind at 1. rewrite ReadNextBytes_app by lia.
  unfold storage.bind at 1. rewrite ReadNextBytes_app by lia.
  cbn [app].
  unfold storage.bind at 1. rewrite ReadByte_cons.
  unfold storage.bind at 1. rewrite ReadByte_cons.
  unfold storage.bind at 1. rewrite ReadNextBytes_app by lia.
  unfold storage.bind at 1. rewrite ReadByte_cons.
  unfold storage.bind at 1. rewrite ReadByte_cons.
  unfold storage.bind at 1. rewrite ReadByte_cons.
  unfold storage.bind at 1. rewrite ReadByte_cons.
  unfold storage.ret. do 3 f_equal. lia.
Qed.

(** What every successful header read guarantees. *)
Lemma readHeader_inv (t t1 : TrackInfo) (r r1 : storage.Reader) :
  dsk.TrackInformation_readHeader t r = Some (t1, r1) ->
  dsk.Sectors t1 = dsk.Sectors t /\ dsk.Data t1 = dsk.Data t
  /\ 0 <= dsk.SectorsCount t1 < 256
  /\ storage.pos r1 = storage.pos r + 24.
Proof.
  unfold dsk.TrackInformation_readHeader. intros E.
  apply bind_Some in E as (ident & ra & Ea & E).
  apply bind_Some in E as (un1 & rb & Eb & E).
  apply bind_Some in E as (track & rc & Ec & E).
  apply bind_Some in E as (side & rd & Ed & E).
  apply bind_Some in E as (un2 & re & Ee & E).
  apply bind_Some in E as (size & rf & Ef & E).
  apply bind_Some in E as (count & rg & Eg & E).
  apply bind_Some in E as (gap & rh & Eh & E).
  apply bind_Some in E as (filler & ri & Ei & E).
  injection E as <- <-. cbn.
  apply ReadNextBytes_reader in Ea as (_ & _ & _ & Pa).
  apply ReadNextBytes_reader in Eb as (_ & _ & _ & Pb).
  apply ReadByte_reader in Ec as (_ & Pc).
  apply ReadByte_reader in Ed as (_ & Pd).
  apply ReadNextBytes_reader in Ee as (_ & _ & _ & Pe).
  apply ReadByte_reader in Ef as (_ & Pf).
  apply ReadByte_reader in Eg as (Rg & Pg).
  apply ReadByte_reader in Eh as (_ & Ph).
  apply ReadByte_reader in Ei as (_ & Pi).
  repeat split; try lia.
Qed.

(** Equal results up to integer arithmetic in the error's argument. *)
Ltac same_result :=
  repeat match goal with
         | |- Some _ = Some _ => f_equal
         | |- (_, _) = (_, _) => f_equal
         | |- Wrapf _ _ _ = Wrapf _ _ _ => f_equal
         end;
  try reflexivity; cbn [length]; lia.

(** *** The descriptor loop *)

Lemma descriptor_chain_length_app (r r1 r2 : storage.Reader)
  (ss : list SectorInformation) (s : SectorInformation) :
  dsk.descriptor_chain r ss r1 ->
  dsk.SectorInformation_Read dsk.SectorInformation_zero r1
  = Some ((s, None), r2) ->
  dsk.descriptor_chain r (ss ++ [s]) r2.
Proof.
  induction 1 as [r|r s0 ra ss rb E0 Hc IH]; intros E; cbn [app].
  - econstructor; [exact E | constructor].
  - econstructor; [exact E0 | exact (IH E)].
Qed.

(** A run of the loop that ends without error has read [n] descriptors,
    one after the other, and appended them to [Sectors]. *)
Lemma readSectorInformationBlocks_loop_ok (n : nat) :
  forall (i : Z) (t t' : TrackInfo) (r r' : storage.Reader),
    dsk.readSectorInformationBlocks_loop n i t r = Some ((t', None), r') ->
    exists ss : list SectorInformation,
      length ss = n /\ dsk.descriptor_chain r ss r'
      /\ t' = dsk.set_Sectors t (dsk.Sectors t ++ ss).
Proof.
  induction n as [|n IH]; intros i t t' r r' E.
  - injection E as <- <-. exists []. repeat split.
    + constructor.
    + symmetry. apply set_Sectors_same.
  - cbn [dsk.readSectorInformationBlocks_loop] in E.
    apply bind_Some in E as ([s err] & r1 & E1 & E).
    destruct err as [e|]; [discriminate|].
    apply IH in E as (ss & Hlen & Hc & ->).
    exists (s :: ss). repeat split.
    + cbn. now rewrite Hlen.
    + econstructor; eassumption.
    + unfold dsk.set_Sectors. cbn. now rewrite <- app_assoc.
Qed.

(** The loop on a stream whose first [k] descriptors read without error
    and whose next descriptor fails, [k] being below the loop bound. *)
Lemma readSectorInformationBlocks_loop_fails (ss : list SectorInformation) :
  forall (n : nat) (i : Z) (t : TrackInfo) (r rk rk' : storage.Reader)
         (s : SectorInformation) (e : error),
    dsk.descriptor_chain r ss rk ->
    dsk.SectorInformation_Read dsk.SectorInformation_zero rk
    = Some ((s, Some e), rk') ->
    (length ss < n)%nat ->
    dsk.readSectorInformationBlocks_loop n i t r
    = Some ((dsk.set_Sectors t (dsk.Sectors t ++ ss),
             Some (Wrapf e "error reading sector #%d"
                     (i + Z.of_nat (length ss) + 1))), rk').
Proof.
  induction ss as [|s0 ss IH]; intros n i t r rk rk' s e Hc E Hlt.
  - inversion Hc; subst. destruct n as [|n]; [cbn in Hlt; lia|].
    cbn [dsk.readSectorInformationBlocks_loop]. unfold storage.bind.
    rewrite E. unfold storage.ret. rewrite set_Sectors_same.
    same_result.
  - inversion Hc as [|? ? r1 ? ? E0 Hc']; subst.
    destruct n as [|n]; [cbn in Hlt; lia|].
    cbn [dsk.readSectorInformationBlocks_loop]. unfold storage.bind at 1.
    rewrite E0.
    rewrite (IH n (i + 1) _ r1 rk rk' s e Hc' E) by (cbn in Hlt; lia).
    unfold dsk.set_Sectors. cbn. rewrite <- app_assoc. cbn [app].
    same_result.
Qed.

(** The loop on a stream whose first [n] descriptors read without error. *)
Lemma readSectorInformationBlocks_loop_chain (ss : list SectorInformation) :
  forall (i : Z) (t : TrackInfo) (r r' : storage.Reader),
    dsk.descriptor_chain r ss r' ->
    dsk.readSectorInformationBlocks_loop (length ss) i t r
    = Some ((dsk.set_Sectors t (dsk.Sectors t ++ ss), None), r').
Proof.
  induction ss as [|s0 ss IH]; intros i t r r' Hc.
  - inversion Hc; subst. cbn. unfold storage.ret.
    now rewrite set_Sectors_same.
  - inversion Hc as [|? ? r1 ? ? E0 Hc']; subst.
    cbn [length dsk.readSectorInformationBlocks_loop].
    unfold storage.bind at 1. rewrite E0.
    rewrite (IH (i + 1) _ r1 r' Hc').
    unfold dsk.set_Sectors. cbn. now rewrite <- app_assoc.
Qed.

(** *** The payload loop *)

Lemma payload_chain_length (r r' : storage.Reader)
  (ss : list SectorInformation) (ds : list (list byte)) :
  dsk.payload_chain r ss ds r' -> length ds = length ss.
Proof. induction 1; cbn; congruence. Qed.

(** A run of the loop that ends without error has read the payloads of
    the descriptors, in their order and one after the other, and appended
    them to [Data]. *)
Lemma readSectorData_loop_ok (ss : list SectorInformation) :
  forall (i : Z) (t t' : TrackInfo) (r r' : storage.Reader),
    dsk.readSectorData_loop i ss t r = Some ((t', None), r') ->
    exists ds : list (list byte),
      dsk.payload_chain r ss ds r'
      /\ t' = dsk.set_Data t (dsk.Data t ++ ds).
Proof.
  induction ss as [|s ss IH]; intros i t t' r r' E.
  - injection E as <- <-. exists []. split.
    + constructor.
    + symmetry. apply set_Data_same.
  - cbn [dsk.readSectorData_loop] in E.
    apply bind_Some in E as ([d err] & r1 & E1 & E).
    destruct err as [e|]; [discriminate|].
    apply IH in E as (ds & Hc & ->).
    exists (d :: ds). split.
    + econstructor; eassumption.
    + unfold dsk.set_Data. cbn. now rewrite <- app_assoc.
Qed.

(** The loop on a stream whose first payloads read without error and
    whose next payload fails. *)
Lemma readSectorData_loop_fails (ss1 : list SectorInformation) :
  forall (ss2 : list SectorInformation) (ds : list (list byte)) (i : Z)
         (t : TrackInfo) (r rk rk' : storage.Reader)
         (s : SectorInformation) (d : list byte) (e : error),
    dsk.payload_chain r ss1 ds rk ->
    dsk.SectorInformation_DataRead s rk = Some ((d, Some e), rk') ->
    dsk.readSectorData_loop i (ss1 ++ s :: ss2) t r
    = Some ((dsk.set_Data t (dsk.Data t ++ ds),
             Some (Wrapf e "error reading sector #%d"
                     (i + Z.of_nat (length ss1)))), rk').
Proof.
  induction ss1 as [|s0 ss1 IH]; intros ss2 ds i t r rk rk' s d e Hc E.
  - inversion Hc; subst. cbn [app dsk.readSectorData_loop].
    unfold storage.bind. rewrite E. unfold storage.ret.
    rewrite set_Data_same. same_result.
  - inversion Hc as [|? ? d0 r1 ? ds' ? E0 Hc']; subst.
    cbn [app dsk.readSectorData_loop]. unfold storage.bind at 1.
    rewrite E0.
    rewrite (IH ss2 ds' (i + 1) _ r1 rk rk' s d e Hc' E).
    unfold dsk.set_Data. cbn. rewrite <- app_assoc. cbn [app].
    same_result.
Qed.

(** *** Moving to the data address *)

Lemma set_Sectors_count (t : TrackInfo) (ss : list SectorInformation) :
  dsk.SectorsCount (dsk.set_Sectors t ss) = dsk.SectorsCount t.
Proof. reflexivity. Qed.

(** With a descriptor size that fits 32 bits and a [uint8] count, the
    count passed to [Discard] is the exact remainder. *)
Lemma discard_count_exact (t : TrackInfo) :
  0 <= dsk.sectorInformationBlockSize < 2 ^ 32 ->
  0 <= dsk.SectorsCount t < 256 ->
  int_wrap
    (dsk.sectorDataStartAddress
     - int_wrap (dsk.trackInformationBlockSize
                 + int_wrap (dsk.SectorsCount t * dsk.sectorInformationBlockSize)))
  = dsk.sectorDataStartAddress
    - (dsk.trackInformationBlockSize
       + dsk.SectorsCount t * dsk.sectorInformationBlockSize).
Proof.
  intros Hs Hc. unfold dsk.sectorDataStartAddress, dsk.trackInformationBlockSize.
  assert (0 <= dsk.SectorsCount t * dsk.sectorInformationBlockSize
          < 256 * 2 ^ 32) by nia.
  rewrite (int_wrap_small (_ * _)) by lia.
  rewrite (int_wrap_small (24 + _)) by lia.
  apply int_wrap_small. lia.
Qed.

(** A negative remainder: [Discard] refuses the count and nothing is
    consumed. *)
Lemma setBufferToDataAddress_negative (t : TrackInfo) (r : storage.Reader) :
  0 <= dsk.sectorInformationBlockSize < 2 ^ 32 ->
  0 <= dsk.SectorsCount t < 256 ->
  dsk.sectorDataStartAddress
  < dsk.trackInformationBlockSize
    + dsk.SectorsCount t * dsk.sectorInformationBlockSize ->
  dsk.setBufferToDataAddress t r
  = Some (Some (Wrap ErrNegativeCount "error moving reader position to 0x0100"),
          r).
Proof.
  intros Hs Hc Hneg. unfold dsk.setBufferToDataAddress, storage.bind.
  rewrite discard_count_exact by assumption.
  unfold storage.Discard.
  rewrite (proj2 (Z.ltb_lt _ 0)) by lia. reflexivity.
Qed.

(** A remainder of zero: nothing is discarded and no error is returned. *)
Lemma setBufferToDataAddress_zero (t : TrackInfo) (r : storage.Reader) :
  0 <= dsk.sectorInformationBlockSize < 2 ^ 32 ->
  0 <= dsk.SectorsCount t < 256 ->
  dsk.trackInformationBlockSize
  + dsk.SectorsCount t * dsk.sectorInformationBlockSize
  = dsk.sectorDataStartAddress ->
  dsk.setBufferToDataAddress t r = Some (None, r).
Proof.
  intros Hs Hc Hz. unfold dsk.setBufferToDataAddress, storage.bind.
  rewrite discard_count_exact by assumption.
  replace (_ - _) with 0 by lia.
  unfold storage.Discard, storage.remaining, storage.advance, storage.ret.
  cbn [Z.ltb Z.compare Z.to_nat].
  rewrite (proj2 (Z.leb_le 0 _)) by lia.
  rewrite drop_0, Z.add_0_r. now destruct r.
Qed.

(** *** The body of Read *)

Lemma Read_after_header (t t1 : TrackInfo) (r r1 : storage.Reader) :
  dsk.TrackInformation_readHeader t r = Some (t1, r1) ->
  dsk.TrackInformation_Read t r = dsk.TrackInformation_readBody t1 r1.
Proof.
  intros E. unfold dsk.TrackInformation_Read, storage.bind. now rewrite E.
Qed.

(** An error-free run of the body: the descriptors are read, the reader
    is moved to the data address, the payloads are read. *)
Lemma readBody_ok (t1 t' : TrackInfo) (r1 r' : storage.Reader) :
  dsk.TrackInformation_readBody t1 r1 = Some ((t', None), r') ->
  exists (ss : list SectorInformation) (ds : list (list byte))
         (r2 r3 : storage.Reader),
    length ss = Z.to_nat (dsk.SectorsCount t1)
    /\ dsk.descriptor_chain r1 ss r2
    /\ dsk.setBufferToDataAddress
         (dsk.set_Sectors t1 (dsk.Sectors t1 ++ ss)) r2 = Some (None, r3)
    /\ dsk.payload_chain r3 (dsk.Sectors t1 ++ ss) ds r'
    /\ t' = dsk.set_Data (dsk.set_Sectors t1 (dsk.Sectors t1 ++ ss))
              (dsk.Data t1 ++ ds).
Proof.
  unfold dsk.TrackInformation_readBody. intros E.
  apply bind_Some in E as ([t2 err] & r2 & E2 & E).
  destruct err as [e|]; [discriminate|].
  apply bind_Some in E as (err & r3 & E3 & E).
  destruct err as [e|]; [discriminate|].
  apply bind_Some in E as ([t3 err] & r4 & E4 & E).
  destruct err as [e|]; [discriminate|].
  injection E as <- <-.
  apply readSectorInformationBlocks_loop_ok in E2 as (ss & Hlen & Hc & ->).
  apply readSectorData_loop_ok in E4 as (ds & Hp & ->).
  exists ss, ds, r2, r3. repeat split; assumption.
Qed.


(** An error-free [Read] on a zero-valued receiver. *)
Lemma Read_zero_ok (r r' : storage.Reader) (t' : TrackInfo) :
  dsk.TrackInformation_Read dsk.TrackInformation_zero r
  = Some ((t', None), r') ->
  exists r2 r3 : storage.Reader,
    Z.of_nat (length (dsk.Sectors t')) = dsk.SectorsCount t'
    /\ dsk.setBufferToDataAddress t' r2 = Some (None, r3)
    /\ dsk.payload_chain r3 (dsk.Sectors t') (dsk.Data t') r'.
Proof.
  intros E. unfold dsk.TrackInformation_Read in E.
  apply bind_Some in E as (t1 & r1 & Eh & Eb).
  apply readHeader_inv in Eh as (Hs & Hd & Hc & _).
  apply readBody_ok in Eb as (ss & ds & r2 & r3 & Hlen & _ & Eset & Hp & ->).
  rewrite Hs in *. rewrite Hd. cbn [dsk.TrackInformation_zero dsk.Sectors
    dsk.Data app] in *.
  exists r2, r3. cbn. repeat split.
  - rewrite Hlen. lia.
  - exact Eset.
  - exact Hp.
Qed.

(** C4: after an error-free [Read] on a zero-valued receiver,
    [len(Sectors) == SectorsCount == len(Data)]. *)
Theorem Read_lengths_agree (r r' : storage.Reader) (t' : TrackInfo) :
  dsk.TrackInformation_Read dsk.TrackInformation_zero r
  = Some ((t', None), r') ->
  Z.of_nat (length (dsk.Sectors t')) = dsk.SectorsCount t'
  /\ dsk.SectorsCount t' = Z.of_nat (length (dsk.Data t')).
Proof.
  intros E. apply Read_zero_ok in E as (r2 & r3 & Hlen & _ & Hp).
  apply payload_chain_length in Hp. split; [exact Hlen | lia].
Qed.


(** C6: [Read] consumes exactly 24 bytes for the track header and assigns
    the fields in the byte order of the input: 13 identifier bytes, 3
    unused bytes, track number, side number, 2 unused bytes, sector size
    code, sector count, gap length, filler byte; the rest of [Read]
    continues at the byte after them. *)
Theorem Read_header_layout (t : TrackInfo) (ident un1 un2 : list byte)
  (track side size count gap filler : byte) (tail : list byte) (p : Z) :
  length (dsk.Identifier t) = 13%nat ->
  length (dsk.Unused1 t) = 3%nat ->
  length (dsk.Unused2 t) = 2%nat ->
  length ident = 13%nat -> length un1 = 3%nat -> length un2 = 2%nat ->
  let input := ident ++ un1 ++ [track; side] ++ un2
               ++ [size; count; gap; filler] ++ tail in
  let t1 : TrackInfo :=
    {| dsk.Identifier := ident; dsk.Unused1 := un1;
       dsk.Track := u8 track; dsk.Side := u8 side;
       dsk.Unused2 := un2;
       dsk.SectorSize := u8 size; dsk.SectorsCount := u8 count;
       dsk.GapLength := u8 gap; dsk.FillerByte := u8 filler;
       dsk.Sectors := dsk.Sectors t; dsk.Data := dsk.Data t |} in
  dsk.TrackInformation_readHeader t (storage.mkReader p input)
  = Some (t1, storage.mkReader (p + 24) tail)
  /\ dsk.TrackInformation_Read t (storage.mkReader p input)
     = dsk.TrackInformation_readBody t1 (storage.mkReader (p + 24) tail).
Proof.
  intros Ha1 Ha2 Ha3 Hid Hu1 Hu2 input t1.
  assert (Eh : dsk.TrackInformation_readHeader t (storage.mkReader p input)
               = Some (t1, storage.mkReader (p + 24) tail)).
  { unfold input, t1. rewrite readHeader_spec by assumption.
    rewrite !copy_same_length by congruence. reflexivity. }
  split; [exact Eh | exact (Read_after_header _ _ _ _ Eh)].
Qed.

(** C3, as the code has it: when the header declares so many descriptors
    that [24 + SectorsCount * sectorInformationBlockSize] is greater than
    [0x100], [Read] never ends without error, and once the descriptors are
    read it returns the reader's refusal of the negative count, wrapped as
    "error moving reader position to 0x0100", with nothing discarded. *)
Theorem Read_rejects_negative_remainder (t t1 : TrackInfo)
  (r r1 : storage.Reader) :
  0 <= dsk.sectorInformationBlockSize < 2 ^ 32 ->
  dsk.TrackInformation_readHeader t r = Some (t1, r1) ->
  dsk.sectorDataStartAddress
  < dsk.trackInformationBlockSize
    + dsk.SectorsCount t1 * dsk.sectorInformationBlockSize ->
  (forall (t' : TrackInfo) (r' : storage.Reader),
      dsk.TrackInformation_Read t r <> Some ((t', None), r'))
  /\ (forall (t2 : TrackInfo) (r2 : storage.Reader),
         dsk.readSectorInformationBlocks t1 r1 = Some ((t2, None), r2) ->
         dsk.TrackInformation_Read t r
         = Some ((t2, Some (Wrap ErrNegativeCount
                              "error moving reader position to 0x0100")),
                 r2)).
Proof.
  intros Hsize Hh Hneg.
  rewrite (Read_after_header _ _ _ _ Hh).
  apply readHeader_inv in Hh as (_ & _ & Hc & _).
  split.
  - intros t' r' E.
    apply readBody_ok in E as (ss & ds & r2 & r3 & _ & _ & Eset & _).
    rewrite setBufferToDataAddress_negative in Eset
      by (rewrite ?set_Sectors_count; assumption).
    discriminate.
  - intros t2 r2 E2.
    unfold dsk.TrackInformation_readBody, storage.bind. rewrite E2.
    apply readSectorInformationBlocks_loop_ok in E2 as (ss & _ & _ & ->).
    rewrite setBufferToDataAddress_negative
      by (rewrite ?set_Sectors_count; assumption).
    reflexivity.
Qed.

(** C9: [Read] is not atomic on error.  When the first [k] descriptors
    are read and descriptor [k + 1] fails, [Read] returns the error and
    the [Sectors] of the receiver are those it held before followed by
    the [k] descriptors, its [Data] being untouched; when all descriptors
    are read and the payload of the descriptor at index [j] fails, [Read]
    returns the error and the [Data] of the receiver are those it held
    before followed by the [j] payloads read before the failure, its
    [Sectors] holding all the descriptors.  In neither case is the state
    before the call restored. *)
Theorem Read_keeps_partial_state (t t1 : TrackInfo) (r r1 : storage.Reader) :
  dsk.TrackInformation_readHeader t r = Some (t1, r1) ->
  (forall (ss : list SectorInformation) (rk rk' : storage.Reader)
          (s : SectorInformation) (e : error),
      dsk.descriptor_chain r1 ss rk ->
      Z.of_nat (length ss) < dsk.SectorsCount t1 ->
      dsk.SectorInformation_Read dsk.SectorInformation_zero rk
      = Some ((s, Some e), rk') ->
      exists t' : TrackInfo,
        dsk.TrackInformation_Read t r
        = Some ((t', Some (Wrapf e "error reading sector #%d"
                             (Z.of_nat (length ss) + 1))), rk')
        /\ dsk.Sectors t' = dsk.Sectors t ++ ss
        /\ dsk.Data t' = dsk.Data t
        /\ dsk.SectorsCount t' = dsk.SectorsCount t1)
  /\ (forall (ss ss1 ss2 : list SectorInformation) (s : SectorInformation)
             (ds : list (list byte)) (d : list byte) (e : error)
             (r2 r3 rk rk' : storage.Reader),
         dsk.descriptor_chain r1 ss r2 ->
         Z.of_nat (length ss) = dsk.SectorsCount t1 ->
         dsk.setBufferToDataAddress t1 r2 = Some (None, r3) ->
         dsk.Sectors t ++ ss = ss1 ++ s :: ss2 ->
         dsk.payload_chain r3 ss1 ds rk ->
         dsk.SectorInformation_DataRead s rk = Some ((d, Some e), rk') ->
         exists t' : TrackInfo,
           dsk.TrackInformation_Read t r
           = Some ((t', Some (Wrapf e "error reading sector #%d"
                                (Z.of_nat (length ss1)))), rk')
           /\ dsk.Sectors t' = dsk.Sectors t ++ ss
           /\ dsk.Data t' = dsk.Data t ++ ds
           /\ length ds = length ss1
           /\ dsk.SectorsCount t' = dsk.SectorsCount t1).
Proof.
  intros Hh. rewrite (Read_after_header _ _ _ _ Hh).
  apply readHeader_inv in Hh as (Hs & Hd & Hc & _).
  rewrite <- Hs, <- Hd. split.
  - intros ss rk rk' s e Hch Hlt E.
    exists (dsk.set_Sectors t1 (dsk.Sectors t1 ++ ss)).
    split; [|cbn; repeat split].
    unfold dsk.TrackInformation_readBody, dsk.readSectorInformationBlocks.
    unfold storage.bind.
    rewrite (readSectorInformationBlocks_loop_fails ss _ 0 t1 r1 rk rk' s e
               Hch E) by lia.
    unfold storage.ret. same_result.
  - intros ss ss1 ss2 s ds d e r2 r3 rk rk' Hch Hlen Eset Hsplit Hp E.
    exists (dsk.set_Data (dsk.set_Sectors t1 (dsk.Sectors t1 ++ ss))
              (dsk.Data t1 ++ ds)).
    split; [|cbn; repeat split; apply (payload_chain_length _ _ _ _ Hp)].
    unfold dsk.TrackInformation_readBody, dsk.readSectorInformationBlocks.
    unfold storage.bind at 1.
    replace (Z.to_nat (dsk.SectorsCount t1)) with (length ss) by lia.
    rewrite (readSectorInformationBlocks_loop_chain ss 0 t1 r1 r2 Hch).
    unfold storage.bind at 1.
    change (dsk.setBufferToDataAddress
              (dsk.set_Sectors t1 (dsk.Sectors t1 ++ ss)) r2)
      with (dsk.setBufferToDataAddress t1 r2).
    rewrite Eset.
    unfold storage.bind, dsk.readSectorData.
    cbn [dsk.set_Sectors dsk.Sectors]. rewrite Hsplit.
    rewrite (readSectorData_loop_fails ss1 ss2 ds 0 _ r3 rk rk' s d e Hp E).
    unfold storage.ret. same_result.
Qed.

End TrackProperties.

(** *** The track decoder on the DSK sector descriptor *)

Lemma Read_track_2 :
  dsk.TrackInformation_Read dsk.TrackInformation_zero
    (storage.mkReader 0 samples.track_2)
  = Some ((samples.track_2_decoded, None), storage.mkReader 512 [x99]).
Proof. vm_compute. reflexivity. Qed.

Lemma Read_lengths_agree_witness :
  dsk.TrackInformation_Read dsk.TrackInformation_zero
    (storage.mkReader 0 samples.track_2)
  = Some ((samples.track_2_decoded, None), storage.mkReader 512 [x99])
  /\ Z.of_nat (length (dsk.Sectors samples.track_2_decoded))
     = dsk.SectorsCount samples.track_2_decoded
  /\ dsk.SectorsCount samples.track_2_decoded
     = Z.of_nat (length (dsk.Data samples.track_2_decoded)).
Proof.
  split; [vm_compute; reflexivity|].
  apply (Read_lengths_agree (storage.mkReader 0 samples.track_2)
           (storage.mkReader 512 [x99]) samples.track_2_decoded).
  vm_compute. reflexivity.
Defined.


Lemma Read_header_layout_witness :
  let t : dsk.TrackInformation dsk_sector.SectorInformation :=
    dsk.TrackInformation_zero in
  let ident :=
    [x54; x72; x61; x63; x6b; x2d; x49; x6e; x66; x6f; x0d; x0a; x00] in
  (length (dsk.Identifier t) = 13%nat
   /\ length (dsk.Unused1 t) = 3%nat
   /\ length (dsk.Unused2 t) = 2%nat
   /\ length ident = 13%nat
   /\ length [x00; x00; x00] = 3%nat
   /\ length [x00; x00] = 2%nat)
  /\ dsk.TrackInformation_readHeader t
       (storage.mkReader 0 (samples.header x02 ++ [xaa; xbb]))
     = Some (samples.after_header x02, storage.mkReader 24 [xaa; xbb])
  /\ dsk.TrackInformation_Read t
       (storage.mkReader 0 (samples.header x02 ++ [xaa; xbb]))
     = dsk.TrackInformation_readBody (samples.after_header x02)
         (storage.mkReader 24 [xaa; xbb]).
Proof.
  intros t ident. split; [repeat split; reflexivity|].
  apply (Read_header_layout t ident [x00; x00; x00] [x00; x00]
           x01 x00 x00 x02 x4e xe5 [xaa; xbb] 0); reflexivity.
Defined.

(** C3, the claim as stated fails: the 29 descriptors of [track_29] end
    exactly at offset 0x100, so [24 + SectorsCount * 8 = 0x100], and
    [Read] ends without error. *)
Lemma Read_accepts_zero_remainder :
  dsk.trackInformationBlockSize
  + dsk.SectorsCount samples.track_29_decoded
    * @dsk.sectorInformationBlockSize _ dsk_sector.dsk_SectorOps
  >= dsk.sectorDataStartAddress
  /\ dsk.TrackInformation_Read dsk.TrackInformation_zero
       (storage.mkReader 0 samples.track_29)
     = Some ((samples.track_29_decoded, None), storage.mkReader 3968 []).
Proof. split; [vm_compute; discriminate | vm_compute; reflexivity]. Qed.

Lemma Read_rejects_negative_remainder_witness :
  let r := storage.mkReader 0 samples.track_30 in
  let t1 := samples.after_header x1e in
  let r1 :=
    storage.mkReader 24
      (concat (replicate 30 (samples.descriptor xc1)) ++ replicate 128 xe5) in
  (0 <= @dsk.sectorInformationBlockSize _ dsk_sector.dsk_SectorOps < 2 ^ 32
   /\ dsk.TrackInformation_readHeader dsk.TrackInformation_zero r
      = Some (t1, r1)
   /\ dsk.sectorDataStartAddress
      < dsk.trackInformationBlockSize
        + dsk.SectorsCount t1
          * @dsk.sectorInformationBlockSize _ dsk_sector.dsk_SectorOps)
  /\ (forall (t' : dsk.TrackInformation dsk_sector.SectorInformation)
             (r' : storage.Reader),
         dsk.TrackInformation_Read dsk.TrackInformation_zero r
         <> Some ((t', None), r'))
  /\ dsk.TrackInformation_Read dsk.TrackInformation_zero r
     = Some ((dsk.set_Sectors t1 (replicate 30 (samples.sector xc1)),
              Some (Wrap ErrNegativeCount
                      "error moving reader position to 0x0100")),
             storage.mkReader 264 (replicate 128 xe5)).
Proof.
  intros r t1 r1.
  assert (Hsize : 0 <= @dsk.sectorInformationBlockSize _
                         dsk_sector.dsk_SectorOps < 2 ^ 32)
    by (vm_compute; split; [discriminate | reflexivity]).
  assert (Hh : dsk.TrackInformation_readHeader dsk.TrackInformation_zero r
               = Some (t1, r1)) by (vm_compute; reflexivity).
  assert (Hneg : dsk.sectorDataStartAddress
                 < dsk.trackInformationBlockSize
                   + dsk.SectorsCount t1
                     * @dsk.sectorInformationBlockSize _
                         dsk_sector.dsk_SectorOps)
    by (vm_compute; reflexivity).
  split; [exact (conj Hsize (conj Hh Hneg))|].
  destruct (Read_rejects_negative_remainder dsk.TrackInformation_zero t1 r r1
              Hsize Hh Hneg) as [Hnever Herr].
  split; [exact Hnever|].
  apply Herr. vm_compute. reflexivity.
Defined.

Lemma Read_keeps_partial_state_witness :
  let t0 : dsk.TrackInformation dsk_sector.SectorInformation :=
    dsk.TrackInformation_zero in
  let t1 := samples.after_header x02 in
  let rA := storage.mkReader 0 samples.track_2_short_descriptor in
  let rB := storage.mkReader 0 samples.track_2_short_payload in
  (dsk.TrackInformation_readHeader t0 rA
   = Some (t1, storage.mkReader 24
                 (samples.descriptor xc1 ++ [x01; x00; xc2]))
   /\ exists t' : dsk.TrackInformation dsk_sector.SectorInformation,
        dsk.TrackInformation_Read t0 rA
        = Some ((t', Some (Wrapf ErrUnexpectedEOF
                             "error reading sector #%d" 2)),
                storage.mkReader 32 [x01; x00; xc2])
        /\ dsk.Sectors t' = [samples.sector xc1]
        /\ dsk.Data t' = []
        /\ dsk.SectorsCount t' = 2)
  /\ (dsk.TrackInformation_readHeader t0 rB
      = Some (t1, storage.mkReader 24
                    (samples.descriptor xc1 ++ samples.descriptor xc2
                     ++ replicate 216 x00 ++ replicate 128 xe5
                     ++ [x1a; x1a; x1a; x1a; x1a]))
      /\ exists t' : dsk.TrackInformation dsk_sector.SectorInformation,
           dsk.TrackInformation_Read t0 rB
           = Some ((t', Some (Wrapf ErrUnexpectedEOF
                                "error reading sector #%d" 1)),
                   storage.mkReader 384 [x1a; x1a; x1a; x1a; x1a])
           /\ dsk.Sectors t' = [samples.sector xc1; samples.sector xc2]
           /\ dsk.Data t' = [replicate 128 xe5]
           /\ length [replicate 128 xe5] = length [samples.sector xc1]
           /\ dsk.SectorsCount t' = 2).
Proof.
  intros t0 t1 rA rB. split.
  - assert (Hh : dsk.TrackInformation_readHeader t0 rA
                 = Some (t1, storage.mkReader 24
                               (samples.descriptor xc1 ++ [x01; x00; xc2])))
      by (vm_compute; reflexivity).
    split; [exact Hh|].
    apply (proj1 (Read_keeps_partial_state _ _ _ _ Hh)
             [samples.sector xc1]
             (storage.mkReader 32 [x01; x00; xc2])
             (storage.mkReader 32 [x01; x00; xc2])
             dsk_sector.SectorInformation_zero ErrUnexpectedEOF).
    + econstructor; [vm_compute; reflexivity | constructor].
    + vm_compute. reflexivity.
    + vm_compute. reflexivity.
  - assert (Hh : dsk.TrackInformation_readHeader t0 rB
                 = Some (t1, storage.mkReader 24
                               (samples.descriptor xc1
                                ++ samples.descriptor xc2
                                ++ replicate 216 x00 ++ replicate 128 xe5
                                ++ [x1a; x1a; x1a; x1a; x1a])))
      by (vm_compute; reflexivity).
    split; [exact Hh|].
    apply (proj2 (Read_keeps_partial_state _ _ _ _ Hh)
             [samples.sector xc1; samples.sector xc2]
             [samples.sector xc1] [] (samples.sector xc2)
             [replicate 128 xe5] [] ErrUnexpectedEOF
             (storage.mkReader 40
                (replicate 216 x00 ++ replicate 128 xe5
                 ++ [x1a; x1a; x1a; x1a; x1a]))
             (storage.mkReader 256
                (replicate 128 xe5 ++ [x1a; x1a; x1a; x1a; x1a]))
             (storage.mkReader 384 [x1a; x1a; x1a; x1a; x1a])
             (storage.mkReader 384 [x1a; x1a; x1a; x1a; x1a])).
    + econstructor; [vm_compute; reflexivity|].
      econstructor; [vm_compute; reflexivity | constructor].
    + vm_compute. reflexivity.
    + vm_compute. reflexivity.
    + reflexivity.
    + econstructor; [vm_compute; reflexivity | constructor].
    + vm_compute. reflexivity.
Defined.

(** ** The control-flow resolver *)

(** C8: the directory [[A, LoopStart(3), B, C, LoopEnd, D]] resolves to
    the effective play order [A, B, C, B, C, B, C, D]: the indices 2 and 3
    between [LoopStart] and [LoopEnd] are played exactly three times and
    the order continues at index 5, after [LoopEnd].  Thirteen steps
    suffice, whatever the data blocks and the choice function are. *)
Theorem loop_example_play_order (a b c d : Z) (choose : Z -> option nat)
  (extra : nat) :
  let dir :=
    [resolver.DataBlock a; resolver.LoopStart 3; resolver.DataBlock b;
     resolver.DataBlock c; resolver.LoopEnd; resolver.DataBlock d] in
  resolver.play_order (13 + extra) dir choose
  = inr [0; 2; 3; 2; 3; 2; 3; 5]
  /\ resolver.blocks_at dir [0; 2; 3; 2; 3; 2; 3; 5]
     = [Some (resolver.DataBlock a);
        Some (resolver.DataBlock b); Some (resolver.DataBlock c);
        Some (resolver.DataBlock b); Some (resolver.DataBlock c);
        Some (resolver.DataBlock b); Some (resolver.DataBlock c);
        Some (resolver.DataBlock d)].
Proof. split; reflexivity. Qed.

(** Twelve steps do not reach the end of that tape. *)
Example loop_example_needs_13_steps (a b c d : Z) (choose : Z -> option nat) :
  resolver.play_order 12
    [resolver.DataBlock a; resolver.LoopStart 3; resolver.DataBlock b;
     resolver.DataBlock c; resolver.LoopEnd; resolver.DataBlock d] choose
  = inl resolver.StepLimitExceeded.
Proof. reflexivity. Qed.

(** *** Loops in general *)

Section LoopResolution.

Variable dir : list resolver.Block.
Variable choose : Z -> option nat.

Lemma prepend_app (xs ys : list Z) (res : resolver.ResolveError + list Z) :
  resolver.prepend xs (resolver.prepend ys res)
  = resolver.prepend (xs ++ ys) res.
Proof. destruct res; cbn; [reflexivity | now rewrite app_assoc]. Qed.

(** A run of [len] data-only blocks from index [k] plays them in order. *)
Lemma play_data_run (len : nat) :
  forall (k : Z) (cs : list Z) (ls : list (Z * Z)) (fuel : nat),
    (forall m : Z, 0 <= m < Z.of_nat len -> resolver.data_only dir (k + m)) ->
    resolver.play_order_from (len + fuel) dir choose
      {| resolver.index := k; resolver.calls := cs; resolver.loops := ls |}
    = resolver.prepend (seqZ k (Z.of_nat len))
        (resolver.play_order_from fuel dir choose
           {| resolver.index := k + Z.of_nat len; resolver.calls := cs;
              resolver.loops := ls |}).
Proof.
  induction len as [|len IH]; intros k cs ls fuel Hdata.
  - cbn [Nat.add Z.of_nat]. rewrite Z.add_0_r, seqZ_nil by lia.
    now destruct (resolver.play_order_from _ _ _ _).
  - destruct (Hdata 0 ltac:(lia)) as [id Hk]. rewrite Z.add_0_r in Hk.
    cbn [Nat.add resolver.play_order_from].
    unfold resolver.step. cbn [resolver.index]. rewrite Hk.
    unfold resolver.goto. cbn [resolver.calls resolver.loops].
    rewrite IH by (intros m Hm; replace (k + 1 + m) with (k + (1 + m)) by lia;
                   apply Hdata; lia).
    rewrite (seqZ_cons k (Z.of_nat (S len))) by lia.
    replace (Z.pred (Z.of_nat (S len))) with (Z.of_nat len) by lia.
    replace (k + 1 + Z.of_nat len) with (k + Z.of_nat (S len)) by lia.
    unfold Z.succ.
    now destruct (resolver.play_order_from _ _ _ _).
Qed.

Variables (i : Z) (len : nat).
Hypothesis body_is_data :
  forall m : Z, 0 <= m < Z.of_nat len -> resolver.data_only dir (i + 1 + m).
Hypothesis loop_end :
  resolver.block_at dir (i + 1 + Z.of_nat len) = Some resolver.LoopEnd.

(** With [S n] repetitions left, the body is played [S n] times and the
    order continues after [LoopEnd] with the loop closed. *)
Lemma play_loop_repetitions (n : nat) :
  forall (cs : list Z) (fuel : nat),
    resolver.play_order_from (S n * (len + 1) + fuel) dir choose
      {| resolver.index := i + 1; resolver.calls := cs;
         resolver.loops := [(i, Z.of_nat (S n))] |}
    = resolver.prepend
        (concat (replicate (S n) (seqZ (i + 1) (Z.of_nat len))))
        (resolver.play_order_from fuel dir choose
           {| resolver.index := i + 1 + Z.of_nat len + 1;
              resolver.calls := cs; resolver.loops := [] |}).
Proof.
  induction n as [|n IH]; intros cs fuel.
  - replace (1 * (len + 1) + fuel)%nat with (len + S fuel)%nat by lia.
    rewrite play_data_run by exact body_is_data.
    cbn [resolver.play_order_from]. unfold resolver.step.
    cbn [resolver.index resolver.loops resolver.calls]. rewrite loop_end.
    cbn [replicate concat]. rewrite app_nil_r. reflexivity.
  - replace (S (S n) * (len + 1) + fuel)%nat
      with (len + S (S n * (len + 1) + fuel))%nat by lia.
    rewrite play_data_run by exact body_is_data.
    cbn [resolver.play_order_from]. unfold resolver.step.
    cbn [resolver.index resolver.loops resolver.calls]. rewrite loop_end.
    rewrite (proj2 (Z.ltb_lt 1 _)) by lia.
    replace (Z.of_nat (S (S n)) - 1) with (Z.of_nat (S n)) by lia.
    rewrite IH, prepend_app. reflexivity.
Qed.

(** The loop rule: a [LoopStart(count)] at index [i] whose body is the
    data-only blocks up to the [LoopEnd] plays the indices of the body
    exactly [count] times and continues at the index after [LoopEnd]. *)
Lemma play_loop (n : nat) (cs : list Z) (fuel : nat) :
  resolver.block_at dir i = Some (resolver.LoopStart (Z.of_nat (S n))) ->
  resolver.play_order_from (S (S n * (len + 1) + fuel)) dir choose
    {| resolver.index := i; resolver.calls := cs; resolver.loops := [] |}
  = resolver.prepend
      (concat (replicate (S n) (seqZ (i + 1) (Z.of_nat len))))
      (resolver.play_order_from fuel dir choose
         {| resolver.index := i + 1 + Z.of_nat len + 1;
            resolver.calls := cs; resolver.loops := [] |}).
Proof.
  intros Hstart. cbn [resolver.play_order_from]. unfold resolver.step.
  cbn [resolver.index resolver.loops resolver.calls]. rewrite Hstart.
  rewrite (proj2 (Z.eqb_neq _ 0)) by lia.
  apply play_loop_repetitions.
Qed.

End LoopResolution.

(** The loop rule at the six-block directory of the example: from the
    [LoopStart] at index 1, indices 2 and 3 are played three times and the
    order continues at index 5. *)
Example play_loop_six_blocks (a b c d : Z) (choose : Z -> option nat)
  (fuel : nat) :
  let dir :=
    [resolver.DataBlock a; resolver.LoopStart 3; resolver.DataBlock b;
     resolver.DataBlock c; resolver.LoopEnd; resolver.DataBlock d] in
  resolver.play_order_from (S (3 * (2 + 1) + fuel)) dir choose
    {| resolver.index := 1; resolver.calls := []; resolver.loops := [] |}
  = resolver.prepend [2; 3; 2; 3; 2; 3]
      (resolver.play_order_from fuel dir choose
         {| resolver.index := 5; resolver.calls := [];
            resolver.loops := [] |}).
Proof.
  intros dir. apply (play_loop dir choose 1 2); [| reflexivity..].
  intros m Hm. assert (m = 0 \/ m = 1) as [-> | ->] by lia.
  - exists b. reflexivity.
  - exists c. reflexivity.
Qed.

(** * Further properties of the decoders *)

(** ** The reader, read backwards *)

Lemma ReadShort_reader (r r' : storage.Reader) (w : Z) :
  storage.ReadShort r = Some (w, r') ->
  exists b0 b1 : byte,
    storage.rest r = b0 :: b1 :: storage.rest r'
    /\ w = le16 b0 b1 /\ storage.pos r' = storage.pos r + 2.
Proof.
  unfold storage.ReadShort.
  destruct (storage.rest r) as [|b0 [|b1 l]] eqn:E; try discriminate.
  intros [= <- <-]. exists b0, b1. cbn. rewrite E. repeat split.
Qed.

Lemma ReadLong_reader (r r' : storage.Reader) (w : Z) :
  storage.ReadLong r = Some (w, r') ->
  exists b0 b1 b2 b3 : byte,
    storage.rest r = b0 :: b1 :: b2 :: b3 :: storage.rest r'
    /\ w = le32 b0 b1 b2 b3 /\ storage.pos r' = storage.pos r + 4.
Proof.
  unfold storage.ReadLong.
  destruct (storage.rest r) as [|b0 [|b1 [|b2 [|b3 l]]]] eqn:E;
    try discriminate.
  intros [= <- <-]. exists b0, b1, b2, b3. cbn. rewrite E. repeat split.
Qed.

Lemma Reader_eta (r : storage.Reader) :
  r = storage.mkReader (storage.pos r) (storage.rest r).
Proof. now destruct r. Qed.

Lemma words_le16_range (body : list byte) :
  Forall (fun w => 0 <= w < 2 ^ 16) (words_le16 body).
Proof.
  induction body as [body IH] using (induction_ltof1 _ (@length byte)).
  destruct body as [|b0 [|b1 body]]; cbn [words_le16]; try constructor.
  - apply le16_range.
  - apply IH. unfold ltof. cbn. lia.
Qed.

(** ** CallSequence *)

Lemma CallSequence_Read_loop_inv (n : nat) :
  forall (c c' : blocks.CallSequence) (r r' : storage.Reader),
    blocks.CallSequence_Read_loop n c r = Some (c', r') ->
    exists body : list byte,
      storage.rest r = body ++ storage.rest r'
      /\ length body = (2 * n)%nat
      /\ blocks.Count c' = blocks.Count c
      /\ blocks.Blocks c' = blocks.Blocks c ++ words_le16 body
      /\ storage.pos r' = storage.pos r + 2 * Z.of_nat n.
Proof.
  induction n as [|n IH]; intros c c' r r' E.
  - injection E as <- <-. exists []. cbn. rewrite app_nil_r.
    repeat split. lia.
  - cbn [blocks.CallSequence_Read_loop] in E.
    apply bind_Some in E as (w & r1 & E1 & E).
    apply ReadShort_reader in E1 as (b0 & b1 & Hrest & -> & Hpos).
    apply IH in E as (body & Hrest' & Hlen & Hc & Hb & Hpos').
    exists (b0 :: b1 :: body). cbn [blocks.Count blocks.Blocks] in *.
    repeat split.
    + rewrite Hrest, Hrest'. reflexivity.
    + cbn. lia.
    + exact Hc.
    + rewrite Hb, <- app_assoc. reflexivity.
    + lia.
Qed.

(** Every run of [Read] that returns, on any receiver. *)
Lemma CallSequence_Read_shape (c c' : blocks.CallSequence)
  (r r' : storage.Reader) :
  blocks.CallSequence_Read c r = Some (c', r') ->
  exists (b0 b1 : byte) (body : list byte),
    storage.rest r = b0 :: b1 :: body ++ storage.rest r'
    /\ blocks.Count c' = le16 b0 b1
    /\ Z.of_nat (length body) = 2 * le16 b0 b1
    /\ blocks.Blocks c' = blocks.Blocks c ++ words_le16 body
    /\ storage.pos r' = storage.pos r + (2 + 2 * le16 b0 b1).
Proof.
  unfold blocks.CallSequence_Read. intros E.
  apply bind_Some in E as (w & r1 & E1 & E).
  apply ReadShort_reader in E1 as (b0 & b1 & Hrest & -> & Hpos).
  pose proof (le16_range b0 b1) as Hr.
  apply CallSequence_Read_loop_inv in E as (body & Hrest' & Hlen & Hc & Hb & Hpos').
  cbn [blocks.Count blocks.Blocks] in *.
  exists b0, b1, body. repeat split.
  - rewrite Hrest, Hrest'. reflexivity.
  - exact Hc.
  - lia.
  - exact Hb.
  - lia.
Qed.

(** X1: whenever [CallSequence.Read] returns, on any receiver, the bytes
    it consumed are a count word [N] and [2N] further bytes: [Count] is
    [N], the [N] words are appended to [Blocks] in input order (so
    [len(Blocks)] grows by exactly [Count]) and the reader has advanced
    by exactly [2 + 2N] bytes. *)
Theorem CallSequence_Read_returns (c c' : blocks.CallSequence)
  (r r' : storage.Reader) :
  blocks.CallSequence_Read c r = Some (c', r') ->
  exists (b0 b1 : byte) (body : list byte),
    storage.rest r = b0 :: b1 :: body ++ storage.rest r'
    /\ blocks.Count c' = le16 b0 b1
    /\ Z.of_nat (length body) = 2 * blocks.Count c'
    /\ blocks.Blocks c' = blocks.Blocks c ++ words_le16 body
    /\ Z.of_nat (length (blocks.Blocks c'))
       = Z.of_nat (length (blocks.Blocks c)) + blocks.Count c'
    /\ storage.pos r' = storage.pos r + (2 + 2 * blocks.Count c').
Proof.
  intros E.
  apply CallSequence_Read_shape in E as (b0 & b1 & body & Hr & Hc & Hl & Hb & Hp).
  pose proof (le16_range b0 b1).
  exists b0, b1, body. rewrite Hc. repeat split; try assumption.
  rewrite Hb, length_app.
  rewrite (words_le16_length body (Z.to_nat (le16 b0 b1))); lia.
Qed.

Lemma CallSequence_Read_returns_witness :
  let c := {| blocks.Count := 7; blocks.Blocks := [1; 2] |} in
  let c' := {| blocks.Count := 1; blocks.Blocks := [1; 2; 65535] |} in
  let r := storage.mkReader 10 [x01; x00; xff; xff; x27] in
  let r' := storage.mkReader 14 [x27] in
  blocks.CallSequence_Read c r = Some (c', r')
  /\ exists (b0 b1 : byte) (body : list byte),
       storage.rest r = b0 :: b1 :: body ++ storage.rest r'
       /\ blocks.Count c' = le16 b0 b1
       /\ Z.of_nat (length body) = 2 * blocks.Count c'
       /\ blocks.Blocks c' = blocks.Blocks c ++ words_le16 body
       /\ Z.of_nat (length (blocks.Blocks c'))
          = Z.of_nat (length (blocks.Blocks c)) + blocks.Count c'
       /\ storage.pos r' = storage.pos r + (2 + 2 * blocks.Count c').
Proof.
  intros c c' r r'. split; [reflexivity|].
  apply (CallSequence_Read_returns c c' r r'). reflexivity.
Defined.

(** X2: [CallSequence.Read] returns exactly when the reader holds the
    count word [N] and at least [2N] more bytes: with fewer than two
    bytes, or with an offset table cut short, the reader's error ends the
    decode. *)
Theorem CallSequence_Read_returns_iff (c : blocks.CallSequence)
  (r : storage.Reader) :
  is_Some (blocks.CallSequence_Read c r)
  <-> exists (b0 b1 : byte) (l : list byte),
        storage.rest r = b0 :: b1 :: l
        /\ 2 * le16 b0 b1 <= Z.of_nat (length l).
Proof.
  split.
  - intros [[c' r'] E].
    apply CallSequence_Read_shape in E as (b0 & b1 & body & Hr & _ & Hl & _).
    exists b0, b1, (body ++ storage.rest r'). split; [exact Hr|].
    rewrite length_app. lia.
  - intros (b0 & b1 & l & Hr & Hl).
    pose proof (le16_range b0 b1) as Hrange.
    rewrite (Reader_eta r), Hr.
    rewrite <- (take_drop (Z.to_nat (2 * le16 b0 b1)) l).
    rewrite CallSequence_Read_appends; [eexists; reflexivity|].
    rewrite length_take. lia.
Qed.

(** X3: the values [CallSequence.Read] stores are [uint16]s: after a run
    that returns, [Count] lies in [0, 65535], and so does every entry of
    [Blocks] if the entries held before did. *)
Theorem CallSequence_Read_uint16 (c c' : blocks.CallSequence)
  (r r' : storage.Reader) :
  blocks.CallSequence_Read c r = Some (c', r') ->
  Forall (fun w => 0 <= w < 2 ^ 16) (blocks.Blocks c) ->
  0 <= blocks.Count c' < 2 ^ 16
  /\ Forall (fun w => 0 <= w < 2 ^ 16) (blocks.Blocks c').
Proof.
  intros E Hold.
  apply CallSequence_Read_shape in E as (b0 & b1 & body & _ & Hc & _ & Hb & _).
  rewrite Hc, Hb. split; [apply le16_range|].
  apply Forall_app. split; [exact Hold | apply words_le16_range].
Qed.

Lemma CallSequence_Read_uint16_witness :
  let c := {| blocks.Count := 7; blocks.Blocks := [1; 2] |} in
  let c' := {| blocks.Count := 1; blocks.Blocks := [1; 2; 65535] |} in
  let r := storage.mkReader 10 [x01; x00; xff; xff; x27] in
  let r' := storage.mkReader 14 [x27] in
  (blocks.CallSequence_Read c r = Some (c', r')
   /\ Forall (fun w => 0 <= w < 2 ^ 16) (blocks.Blocks c))
  /\ 0 <= blocks.Count c' < 2 ^ 16
  /\ Forall (fun w => 0 <= w < 2 ^ 16) (blocks.Blocks c').
Proof.
  intros c c' r r'.
  assert (Hold : Forall (fun w => 0 <= w < 2 ^ 16) (blocks.Blocks c))
    by (repeat constructor; lia).
  split; [split; [reflexivity | exact Hold]|].
  apply (CallSequence_Read_uint16 c c' r r'); [reflexivity | exact Hold].
Defined.

(** X4: two CallSequence blocks read one after the other into the same
    receiver: [Blocks] accumulates the offsets of both, in order, while
    [Count] is the count of the second only. *)
Theorem CallSequence_Read_twice (c : blocks.CallSequence) (a0 a1 b0 b1 : byte)
  (body1 body2 tail : list byte) (p : Z) :
  Z.of_nat (length body1) = 2 * le16 a0 a1 ->
  Z.of_nat (length body2) = 2 * le16 b0 b1 ->
  storage.bind (blocks.CallSequence_Read c) blocks.CallSequence_Read
    (storage.mkReader p
       (a0 :: a1 :: body1 ++ b0 :: b1 :: body2 ++ tail))
  = Some ({| blocks.Count := le16 b0 b1;
             blocks.Blocks :=
               blocks.Blocks c ++ words_le16 body1 ++ words_le16 body2 |},
          storage.mkReader
            (p + (2 + 2 * le16 a0 a1) + (2 + 2 * le16 b0 b1)) tail).
Proof.
  intros H1 H2. unfold storage.bind.
  rewrite CallSequence_Read_appends by exact H1.
  rewrite CallSequence_Read_appends by exact H2.
  cbn [blocks.Blocks]. now rewrite <- app_assoc.
Qed.

Lemma CallSequence_Read_twice_witness :
  (Z.of_nat (length [x05; x00]) = 2 * le16 x01 x00
   /\ Z.of_nat (length [xfe; xff; x03; x00]) = 2 * le16 x02 x00)
  /\ storage.bind (blocks.CallSequence_Read blocks.CallSequence_zero)
       blocks.CallSequence_Read
       (storage.mkReader 0
          (x01 :: x00 :: [x05; x00]
           ++ x02 :: x00 :: [xfe; xff; x03; x00] ++ [x27]))
     = Some ({| blocks.Count := le16 x02 x00;
                blocks.Blocks :=
                  blocks.Blocks blocks.CallSequence_zero
                  ++ words_le16 [x05; x00]
                  ++ words_le16 [xfe; xff; x03; x00] |},
             storage.mkReader
               (0 + (2 + 2 * le16 x01 x00) + (2 + 2 * le16 x02 x00)) [x27]).
Proof.
  split; [split; reflexivity|].
  apply (CallSequence_Read_twice blocks.CallSequence_zero x01 x00 x02 x00
           [x05; x00] [xfe; xff; x03; x00] [x27] 0); reflexivity.
Defined.

(** *** ToString *)

Lemma count_newlines_app (s1 s2 : string) :
  blocks.count_newlines (s1 ++ s2)%string
  = (blocks.count_newlines s1 + blocks.count_newlines s2)%nat.
Proof.
  induction s1 as [|a s1 IH]; cbn; [reflexivity|]. rewrite IH. lia.
Qed.

Lemma count_newlines_digits (d : Decimal.uint) :
  blocks.count_newlines (NilEmpty.string_of_uint d) = O.
Proof. induction d; cbn; auto. Qed.

Lemma count_newlines_decimal (z : Z) :
  blocks.count_newlines (blocks.decimal z) = O.
Proof.
  unfold blocks.decimal, NilZero.string_of_int, NilZero.string_of_uint.
  destruct (Z.to_int z) as [d|d]; destruct d; cbn;
    try reflexivity; apply count_newlines_digits.
Qed.

Lemma ToString_loop_newlines (bs : list Z) :
  forall str : string,
    blocks.count_newlines
      (fold_left
         (fun str b =>
            (str ++ (" - " ++ blocks.decimal b ++ blocks.newline))%string)
         bs str)
    = (blocks.count_newlines str + length bs)%nat.
Proof.
  induction bs as [|b bs IH]; intros str; cbn [fold_left length].
  - lia.
  - rewrite IH, !count_newlines_app, count_newlines_decimal. cbn. lia.
Qed.

Lemma string_append_assoc (s1 s2 s3 : string) :
  ((s1 ++ s2) ++ s3)%string = (s1 ++ (s2 ++ s3))%string.
Proof. induction s1 as [|a s1 IH]; cbn; [reflexivity | now rewrite IH]. Qed.

Lemma string_append_nil_r (s : string) : (s ++ "")%string = s.
Proof. induction s as [|a s IH]; cbn; [reflexivity | now rewrite IH]. Qed.

(** The loop of [ToString] appends, to what it starts from, one line per
    entry, in order. *)
Lemma ToString_loop_text (bs : list Z) :
  forall str : string,
    fold_left
      (fun str b =>
         (str ++ (" - " ++ blocks.decimal b ++ blocks.newline))%string)
      bs str
    = (str
       ++ fold_right String.append ""
            (map (fun b => " - " ++ blocks.decimal b ++ blocks.newline) bs))
      %string.
Proof.
  induction bs as [|b bs IH]; intros str; cbn [fold_left map fold_right].
  - now rewrite string_append_nil_r.
  - now rewrite IH, string_append_assoc.
Qed.

(** X5: the text of [CallSequence.ToString] is the line "Call Sequence"
    followed, for each entry of [Blocks] in order, by the line made of
    " - " and the decimal digits of the entry; every line is ended by a
    newline and holds no other one, so the text has exactly
    [1 + len(Blocks)] newline-terminated lines. *)
Theorem CallSequence_ToString_lines (c : blocks.CallSequence) :
  blocks.CallSequence_ToString c
  = (("Call Sequence" ++ blocks.newline)
     ++ fold_right String.append ""
          (map (fun b => " - " ++ blocks.decimal b ++ blocks.newline)
             (blocks.Blocks c)))%string
  /\ blocks.count_newlines "Call Sequence" = O
  /\ Forall
       (fun b =>
          blocks.count_newlines (" - " ++ blocks.decimal b)%string = O)
       (blocks.Blocks c)
  /\ blocks.count_newlines blocks.newline = 1%nat
  /\ blocks.count_newlines (blocks.CallSequence_ToString c)
     = S (length (blocks.Blocks c)).
Proof.
  split; [|split; [reflexivity|split; [|split; [reflexivity|]]]].
  - unfold blocks.CallSequence_ToString, blocks.CallSequence_Name.
    apply ToString_loop_text.
  - apply Forall_forall. intros b _.
    rewrite count_newlines_app, count_newlines_decimal. reflexivity.
  - unfold blocks.CallSequence_ToString. rewrite ToString_loop_newlines.
    reflexivity.
Qed.

(** The text for the offsets 3 and 65534: the second one, which encodes
    the relative offset -2, is printed as the unsigned word. *)
Example CallSequence_ToString_two_offsets :
  blocks.CallSequence_ToString
    {| blocks.Count := 2; blocks.Blocks := [3; 65534] |}
  = ("Call Sequence" ++ blocks.newline
     ++ " - 3" ++ blocks.newline ++ " - 65534" ++ blocks.newline)%string.
Proof. reflexivity. Qed.

(** ** CustomInfo *)

(** X6: whenever [CustomInfo.Read] returns, the bytes it consumed are 10
    identification bytes, a 32-bit little-endian length [L] and [L] info
    bytes: [Identification] and [Length] are replaced by what was read,
    the info bytes are appended to [Info], [Length] is a [uint32] and the
    reader has advanced by exactly [14 + L] bytes. *)
Theorem CustomInfo_Read_returns (c c' : tzx.CustomInfo)
  (r r' : storage.Reader) :
  length (tzx.Identification c) = 10%nat ->
  tzx.CustomInfo_Read c r = Some (c', r') ->
  exists (ident : list byte) (l0 l1 l2 l3 : byte) (info : list byte),
    storage.rest r = ident ++ [l0; l1; l2; l3] ++ info ++ storage.rest r'
    /\ length ident = 10%nat
    /\ tzx.Identification c' = ident
    /\ tzx.Length c' = le32 l0 l1 l2 l3
    /\ 0 <= tzx.Length c' < 2 ^ 32
    /\ Z.of_nat (length info) = tzx.Length c'
    /\ tzx.Info c' = tzx.Info c ++ info
    /\ storage.pos r' = storage.pos r + (14 + tzx.Length c').
Proof.
  intros Harr E. unfold tzx.CustomInfo_Read, tape.ReadBytes, tape.ReadLong in E.
  apply bind_Some in E as (ident & ra & Ea & E).
  apply ReadNextBytes_reader in Ea as (_ & Hra & Hid & Pa).
  rewrite range_assign_full in E by lia.
  apply bind_Some in E as (len & rb & Eb & E).
  apply ReadLong_reader in Eb as (l0 & l1 & l2 & l3 & Hrb & -> & Pb).
  apply bind_Some in E as (info & rc & Ec & E).
  apply ReadNextBytes_reader in Ec as (_ & Hrc & Hinfo & Pc).
  injection E as <- <-. cbn [tzx.Identification tzx.Length tzx.Info].
  exists ident, l0, l1, l2, l3, info. repeat split.
  - rewrite Hra, Hrb, Hrc. reflexivity.
  - lia.
  - apply le32_range.
  - apply le32_range.
  - exact Hinfo.
  - apply range_append_app.
  - lia.
Qed.

Lemma CustomInfo_Read_returns_witness :
  let c := {| tzx.Identification := replicate 10 x41;
              tzx.Length := 2; tzx.Info := [x01; x02] |} in
  let c' := {| tzx.Identification := replicate 10 x20;
               tzx.Length := 3; tzx.Info := [x01; x02; xaa; xbb; xcc] |} in
  let r := storage.mkReader 5
             (replicate 10 x20 ++ [x03; x00; x00; x00]
              ++ [xaa; xbb; xcc] ++ [x5a]) in
  let r' := storage.mkReader 22 [x5a] in
  (length (tzx.Identification c) = 10%nat
   /\ tzx.CustomInfo_Read c r = Some (c', r'))
  /\ exists (ident : list byte) (l0 l1 l2 l3 : byte) (info : list byte),
       storage.rest r = ident ++ [l0; l1; l2; l3] ++ info ++ storage.rest r'
       /\ length ident = 10%nat
       /\ tzx.Identification c' = ident
       /\ tzx.Length c' = le32 l0 l1 l2 l3
       /\ 0 <= tzx.Length c' < 2 ^ 32
       /\ Z.of_nat (length info) = tzx.Length c'
       /\ tzx.Info c' = tzx.Info c ++ info
       /\ storage.pos r' = storage.pos r + (14 + tzx.Length c').
Proof.
  intros c c' r r'. split; [split; reflexivity|].
  apply (CustomInfo_Read_returns c c' r r'); reflexivity.
Defined.

(** X7: [CustomInfo.Read] returns exactly when the reader holds the 14
    bytes of identification and length and at least as many further bytes
    as the length declares; a block cut short ends the decode with the
    reader's error. *)
Theorem CustomInfo_Read_returns_iff (c : tzx.CustomInfo) (r : storage.Reader) :
  length (tzx.Identification c) = 10%nat ->
  is_Some (tzx.CustomInfo_Read c r)
  <-> exists (ident : list byte) (l0 l1 l2 l3 : byte) (l : list byte),
        storage.rest r = ident ++ [l0; l1; l2; l3] ++ l
        /\ length ident = 10%nat
        /\ le32 l0 l1 l2 l3 <= Z.of_nat (length l).
Proof.
  intros Harr. split.
  - intros [[c' r'] E].
    unfold tzx.CustomInfo_Read, tape.ReadBytes, tape.ReadLong in E.
    apply bind_Some in E as (ident & ra & Ea & E).
    apply ReadNextBytes_reader in Ea as (_ & Hra & Hid & _).
    rewrite range_assign_full in E by lia.
    apply bind_Some in E as (len & rb & Eb & E).
    apply ReadLong_reader in Eb as (l0 & l1 & l2 & l3 & Hrb & -> & _).
    apply bind_Some in E as (info & rc & Ec & _).
    apply ReadNextBytes_reader in Ec as (_ & Hrc & Hinfo & _).
    exists ident, l0, l1, l2, l3, (storage.rest rb). repeat split.
    + rewrite Hra, Hrb. reflexivity.
    + lia.
    + rewrite Hrc, length_app. lia.
  - intros (ident & l0 & l1 & l2 & l3 & l & Hr & Hid & Hl).
    pose proof (le32_range l0 l1 l2 l3) as Hrange.
    rewrite (Reader_eta r), Hr.
    rewrite <- (take_drop (Z.to_nat (le32 l0 l1 l2 l3)) l).
    rewrite CustomInfo_Read_spec; [eexists; reflexivity | assumption..|].
    rewrite length_take. lia.
Qed.

Lemma CustomInfo_Read_returns_iff_witness :
  let r := storage.mkReader 0
             (replicate 10 x20 ++ [x03; x00; x00; x00] ++ [xaa; xbb]) in
  length (tzx.Identification tzx.CustomInfo_zero) = 10%nat
  /\ (is_Some (tzx.CustomInfo_Read tzx.CustomInfo_zero r)
      <-> exists (ident : list byte) (l0 l1 l2 l3 : byte) (l : list byte),
            storage.rest r = ident ++ [l0; l1; l2; l3] ++ l
            /\ length ident = 10%nat
            /\ le32 l0 l1 l2 l3 <= Z.of_nat (length l)).
Proof.
  intros r. split; [reflexivity|].
  apply (CustomInfo_Read_returns_iff tzx.CustomInfo_zero r). reflexivity.
Defined.

(** The block of the witness declares three info bytes and holds two:
    [Read] does not return. *)
Example CustomInfo_Read_cut_short :
  tzx.CustomInfo_Read tzx.CustomInfo_zero
    (storage.mkReader 0
       (replicate 10 x20 ++ [x03; x00; x00; x00] ++ [xaa; xbb]))
  = None.
Proof. reflexivity. Qed.

(** X8: two CustomInfo blocks read one after the other into the same
    receiver: [Identification] and [Length] are those of the second
    block, while [Info] holds the info bytes of both, in order. *)
Theorem CustomInfo_Read_twice (c : tzx.CustomInfo) (id1 id2 : list byte)
  (a0 a1 a2 a3 b0 b1 b2 b3 : byte) (info1 info2 tail : list byte) (p : Z) :
  length (tzx.Identification c) = 10%nat ->
  length id1 = 10%nat -> length id2 = 10%nat ->
  Z.of_nat (length info1) = le32 a0 a1 a2 a3 ->
  Z.of_nat (length info2) = le32 b0 b1 b2 b3 ->
  storage.bind (tzx.CustomInfo_Read c) tzx.CustomInfo_Read
    (storage.mkReader p
       (id1 ++ [a0; a1; a2; a3] ++ info1
        ++ id2 ++ [b0; b1; b2; b3] ++ info2 ++ tail))
  = Some ({| tzx.Identification := id2;
             tzx.Length := le32 b0 b1 b2 b3;
             tzx.Info := tzx.Info c ++ info1 ++ info2 |},
          storage.mkReader
            (p + (14 + le32 a0 a1 a2 a3) + (14 + le32 b0 b1 b2 b3)) tail).
Proof.
  intros Harr H1 H2 L1 L2. unfold storage.bind.
  rewrite CustomInfo_Read_spec by assumption.
  rewrite CustomInfo_Read_spec by assumption.
  cbn [tzx.Info]. now rewrite <- app_assoc.
Qed.

Lemma CustomInfo_Read_twice_witness :
  (length (tzx.Identification tzx.CustomInfo_zero) = 10%nat
   /\ length (replicate 10 x41) = 10%nat
   /\ length (replicate 10 x42) = 10%nat
   /\ Z.of_nat (length [xaa]) = le32 x01 x00 x00 x00
   /\ Z.of_nat (length [xbb; xcc]) = le32 x02 x00 x00 x00)
  /\ storage.bind (tzx.CustomInfo_Read tzx.CustomInfo_zero)
       tzx.CustomInfo_Read
       (storage.mkReader 0
          (replicate 10 x41 ++ [x01; x00; x00; x00] ++ [xaa]
           ++ replicate 10 x42 ++ [x02; x00; x00; x00] ++ [xbb; xcc]
           ++ [x5a]))
     = Some ({| tzx.Identification := replicate 10 x42;
                tzx.Length := le32 x02 x00 x00 x00;
                tzx.Info := tzx.Info tzx.CustomInfo_zero ++ [xaa]
                            ++ [xbb; xcc] |},
             storage.mkReader
               (0 + (14 + le32 x01 x00 x00 x00)
                + (14 + le32 x02 x00 x00 x00)) [x5a]).
Proof.
  split; [repeat split; reflexivity|].
  apply (CustomInfo_Read_twice tzx.CustomInfo_zero
           (replicate 10 x41) (replicate 10 x42)
           x01 x00 x00 x00 x02 x00 x00 x00 [xaa] [xbb; xcc] [x5a] 0);
    reflexivity.
Defined.

(** ** GlueBlock *)

(** X9: whenever [GlueBlock.Read] returns, [Value] is the next nine bytes
    of the reader, whatever it held before, and the reader has advanced
    by exactly nine bytes. *)
Theorem GlueBlock_Read_returns (g g' : tzx.GlueBlock) (r r' : storage.Reader) :
  length (tzx.Value g) = 9%nat ->
  tzx.GlueBlock_Read g r = Some (g', r') ->
  tzx.Value g' = take 9 (storage.rest r)
  /\ length (tzx.Value g') = 9%nat
  /\ storage.rest r' = drop 9 (storage.rest r)
  /\ storage.pos r' = storage.pos r + 9.
Proof.
  intros Harr E. unfold tzx.GlueBlock_Read, tape.ReadBytes in E.
  apply bind_Some in E as (v & ra & Ea & E).
  apply ReadNextBytes_reader in Ea as (_ & Hra & Hv & Pa).
  rewrite range_assign_full in E by lia.
  injection E as <- <-. cbn [tzx.Value]. rewrite Hra.
  repeat split.
  - rewrite take_app_length' by lia. reflexivity.
  - lia.
  - rewrite drop_app_length' by lia. reflexivity.
  - exact Pa.
Qed.

Lemma GlueBlock_Read_returns_witness :
  let g := {| tzx.Value := replicate 9 xff |} in
  let g' := {| tzx.Value :=
                 [x58; x54; x61; x70; x65; x21; x1a; x01; x14] |} in
  let r := storage.mkReader 3
             [x58; x54; x61; x70; x65; x21; x1a; x01; x14; x10; x00] in
  let r' := storage.mkReader 12 [x10; x00] in
  (length (tzx.Value g) = 9%nat /\ tzx.GlueBlock_Read g r = Some (g', r'))
  /\ tzx.Value g' = take 9 (storage.rest r)
  /\ length (tzx.Value g') = 9%nat
  /\ storage.rest r' = drop 9 (storage.rest r)
  /\ storage.pos r' = storage.pos r + 9.
Proof.
  intros g g' r r'. split; [split; reflexivity|].
  apply (GlueBlock_Read_returns g g' r r'); reflexivity.
Defined.

(** X10: [GlueBlock.Read] returns exactly when at least nine bytes
    remain. *)
Theorem GlueBlock_Read_returns_iff (g : tzx.GlueBlock) (r : storage.Reader) :
  length (tzx.Value g) = 9%nat ->
  is_Some (tzx.GlueBlock_Read g r) <-> 9 <= storage.remaining r.
Proof.
  intros Harr. unfold storage.remaining. split.
  - intros [[g' r'] E]. unfold tzx.GlueBlock_Read, tape.ReadBytes in E.
    apply bind_Some in E as (v & ra & Ea & _).
    apply ReadNextBytes_reader in Ea as (_ & Hra & Hv & _).
    rewrite Hra, length_app. lia.
  - intros Hlen. unfold tzx.GlueBlock_Read, tape.ReadBytes, storage.bind.
    rewrite (Reader_eta r), <- (take_drop 9 (storage.rest r)).
    rewrite ReadNextBytes_app by (rewrite length_take; lia).
    rewrite range_assign_full by (rewrite length_take; lia).
    eexists. reflexivity.
Qed.

Lemma GlueBlock_Read_returns_iff_witness :
  let r := storage.mkReader 0 [x58; x54; x61; x70; x65; x21; x1a; x01] in
  length (tzx.Value tzx.GlueBlock_zero) = 9%nat
  /\ (is_Some (tzx.GlueBlock_Read tzx.GlueBlock_zero r)
      <-> 9 <= storage.remaining r).
Proof.
  intros r. split; [reflexivity|].
  apply (GlueBlock_Read_returns_iff tzx.GlueBlock_zero r). reflexivity.
Defined.

(** ** TrackInformation *)

Lemma copy_length (dst src : list byte) :
  length (dsk.copy dst src) = length dst.
Proof.
  unfold dsk.copy. rewrite length_app, length_take, length_drop. lia.
Qed.

Section TrackFurther.

Context {SectorInformation : Type} `{dsk.SectorOps SectorInformation}.

Local Abbreviation TrackInfo := (dsk.TrackInformation SectorInformation).

(** The header keeps the arrays at their sizes and stores [uint8]s. *)
Lemma readHeader_fields (t t1 : TrackInfo) (r r1 : storage.Reader) :
  dsk.TrackInformation_readHeader t r = Some (t1, r1) ->
  (length (dsk.Identifier t1) = length (dsk.Identifier t)
   /\ length (dsk.Unused1 t1) = length (dsk.Unused1 t)
   /\ length (dsk.Unused2 t1) = length (dsk.Unused2 t))
  /\ (0 <= dsk.Track t1 < 256 /\ 0 <= dsk.Side t1 < 256
      /\ 0 <= dsk.SectorSize t1 < 256 /\ 0 <= dsk.SectorsCount t1 < 256
      /\ 0 <= dsk.GapLength t1 < 256 /\ 0 <= dsk.FillerByte t1 < 256).
Proof.
  unfold dsk.TrackInformation_readHeader. intros E.
  apply bind_Some in E as (ident & ra & Ea & E).
  apply bind_Some in E as (un1 & rb & Eb & E).
  apply bind_Some in E as (track & rc & Ec & E).
  apply bind_Some in E as (side & rd & Ed & E).
  apply bind_Some in E as (un2 & re & Ee & E).
  apply bind_Some in E as (size & rf & Ef & E).
  apply bind_Some in E as (count & rg & Eg & E).
  apply bind_Some in E as (gap & rh & Eh & E).
  apply bind_Some in E as (filler & ri & Ei & E).
  injection E as <- <-. cbn.
  apply ReadByte_reader in Ec as (Rc & _).
  apply ReadByte_reader in Ed as (Rd & _).
  apply ReadByte_reader in Ef as (Rf & _).
  apply ReadByte_reader in Eg as (Rg & _).
  apply ReadByte_reader in Eh as (Rh & _).
  apply ReadByte_reader in Ei as (Ri & _).
  rewrite !copy_length. repeat split; lia.
Qed.

(** A run of the descriptor loop that ends with an error: some
    descriptors were read, the next one failed. *)
Lemma readSectorInformationBlocks_loop_err (n : nat) :
  forall (i : Z) (t t' : TrackInfo) (r r' : storage.Reader) (err : error),
    dsk.readSectorInformationBlocks_loop n i t r = Some ((t', Some err), r') ->
    exists (ss : list SectorInformation) (s : SectorInformation) (e : error)
           (rk : storage.Reader),
      (length ss < n)%nat
      /\ dsk.descriptor_chain r ss rk
      /\ dsk.SectorInformation_Read dsk.SectorInformation_zero rk
         = Some ((s, Some e), r')
      /\ t' = dsk.set_Sectors t (dsk.Sectors t ++ ss)
      /\ err = Wrapf e "error reading sector #%d"
                 (i + Z.of_nat (length ss) + 1).
Proof.
  induction n as [|n IH]; intros i t t' r r' err E; [discriminate|].
  cbn [dsk.readSectorInformationBlocks_loop] in E.
  apply bind_Some in E as ([s oe] & r1 & E1 & E).
  destruct oe as [e|].
  - injection E as <- <- <-. exists [], s, e, r. repeat split.
    + cbn. lia.
    + constructor.
    + exact E1.
    + symmetry. apply set_Sectors_same.
    + cbn [length]. f_equal. lia.
  - apply IH in E as (ss & s' & e & rk & Hlt & Hc & Ek & -> & ->).
    exists (s :: ss), s', e, rk. repeat split.
    + cbn. lia.
    + econstructor; eassumption.
    + exact Ek.
    + unfold dsk.set_Sectors. cbn. now rewrite <- app_assoc.
    + cbn [length]. f_equal. lia.
Qed.

(** A run of the payload loop that ends with an error: some payloads were
    read, the next one failed. *)
Lemma readSectorData_loop_err (ss : list SectorInformation) :
  forall (i : Z) (t t' : TrackInfo) (r r' : storage.Reader) (err : error),
    dsk.readSectorData_loop i ss t r = Some ((t', Some err), r') ->
    exists (ss1 ss2 : list SectorInformation) (s : SectorInformation)
           (ds : list (list byte)) (d : list byte) (e : error)
           (rk : storage.Reader),
      ss = ss1 ++ s :: ss2
      /\ dsk.payload_chain r ss1 ds rk
      /\ dsk.SectorInformation_DataRead s rk = Some ((d, Some e), r')
      /\ t' = dsk.set_Data t (dsk.Data t ++ ds)
      /\ err = Wrapf e "error reading sector #%d" (i + Z.of_nat (length ss1)).
Proof.
  induction ss as [|s ss IH]; intros i t t' r r' err E; [discriminate|].
  cbn [dsk.readSectorData_loop] in E.
  apply bind_Some in E as ([d oe] & r1 & E1 & E).
  destruct oe as [e|].
  - injection E as <- <- <-. exists [], ss, s, [], d, e, r. repeat split.
    + constructor.
    + exact E1.
    + symmetry. apply set_Data_same.
    + cbn [length]. f_equal. lia.
  - apply IH in E as (ss1 & ss2 & s' & ds & d' & e & rk & -> & Hc & Ek & -> & ->).
    exists (s :: ss1), ss2, s', (d :: ds), d', e, rk. repeat split.
    + econstructor; eassumption.
    + exact Ek.
    + unfold dsk.set_Data. cbn. now rewrite <- app_assoc.
    + cbn [length]. f_equal. lia.
Qed.

(** The only error of [setBufferToDataAddress] is the reader's, wrapped. *)
Lemma setBufferToDataAddress_err (t : TrackInfo) (r r' : storage.Reader)
  (err : error) :
  dsk.setBufferToDataAddress t r = Some (Some err, r') ->
  exists e : error, err = Wrap e "error moving reader position to 0x0100".
Proof.
  unfold dsk.setBufferToDataAddress. intros E.
  apply bind_Some in E as ([n oe] & r1 & _ & E).
  destruct oe as [e|]; [|discriminate].
  injection E as <- _. now exists e.
Qed.

(** Every run of the body of [Read] that ends with an error stopped in
    one of its three steps. *)
Lemma readBody_err (t1 t' : TrackInfo) (r1 r' : storage.Reader) (err : error) :
  dsk.TrackInformation_readBody t1 r1 = Some ((t', Some err), r') ->
  (exists (ss : list SectorInformation) (e : error),
      (length ss < Z.to_nat (dsk.SectorsCount t1))%nat
      /\ t' = dsk.set_Sectors t1 (dsk.Sectors t1 ++ ss)
      /\ err = Wrapf e "error reading sector #%d" (Z.of_nat (length ss) + 1))
  \/ (exists (ss : list SectorInformation) (e : error),
         length ss = Z.to_nat (dsk.SectorsCount t1)
         /\ t' = dsk.set_Sectors t1 (dsk.Sectors t1 ++ ss)
         /\ err = Wrap e "error moving reader position to 0x0100")
  \/ (exists (ss : list SectorInformation) (ds : list (list byte)) (e : error),
         length ss = Z.to_nat (dsk.SectorsCount t1)
         /\ (length ds < length (dsk.Sectors t1 ++ ss))%nat
         /\ t' = dsk.set_Data (dsk.set_Sectors t1 (dsk.Sectors t1 ++ ss))
                   (dsk.Data t1 ++ ds)
         /\ err = Wrapf e "error reading sector #%d" (Z.of_nat (length ds))).
Proof.
  unfold dsk.TrackInformation_readBody. intros E.
  apply bind_Some in E as ([t2 oe] & r2 & E2 & E).
  destruct oe as [e2|].
  { injection E as <- <- <-. left.
    apply readSectorInformationBlocks_loop_err in E2
      as (ss & s & e & rk & Hlt & _ & _ & -> & ->).
    exists ss, e. repeat split; auto; try (f_equal; lia). }
  apply readSectorInformationBlocks_loop_ok in E2 as (ss & Hlen & _ & ->).
  apply bind_Some in E as (oe & r3 & E3 & E).
  destruct oe as [e3|].
  { injection E as <- <- <-. right. left.
    apply setBufferToDataAddress_err in E3 as (e & ->).
    exists ss, e. repeat split; auto. }
  apply bind_Some in E as ([t3 oe] & r4 & E4 & E).
  destruct oe as [e4|]; [|discriminate].
  injection E as <- <- <-. right. right.
  apply readSectorData_loop_err in E4
    as (ss1 & ss2 & s & ds & d & e & rk & Hsplit & Hp & _ & -> & ->).
  cbn [dsk.set_Sectors dsk.Sectors dsk.Data] in *.
  apply payload_chain_length in Hp.
  exists ss, ds, e. split; [exact Hlen|]. split.
  - rewrite Hsplit, length_app, Hp. cbn. lia.
  - split; [reflexivity | f_equal; lia].
Qed.

(** Whatever the outcome, the body of [Read] only appends to [Sectors]
    and to [Data]. *)
Lemma readBody_appends (t1 t' : TrackInfo) (r1 r' : storage.Reader)
  (oerr : option error) :
  dsk.TrackInformation_readBody t1 r1 = Some ((t', oerr), r') ->
  exists (ss : list SectorInformation) (ds : list (list byte)),
    t' = dsk.set_Data (dsk.set_Sectors t1 (dsk.Sectors t1 ++ ss))
           (dsk.Data t1 ++ ds).
Proof.
  intros E. destruct oerr as [err|].
  - apply readBody_err in E
      as [(ss & e & _ & -> & _) | [(ss & e & _ & -> & _)
                                  | (ss & ds & e & _ & _ & -> & _)]].
    + exists ss, []. symmetry.
      exact (set_Data_same (dsk.set_Sectors t1 (dsk.Sectors t1 ++ ss))).
    + exists ss, []. symmetry.
      exact (set_Data_same (dsk.set_Sectors t1 (dsk.Sectors t1 ++ ss))).
    + now exists ss, ds.
  - apply readBody_ok in E as (ss & ds & _ & _ & _ & _ & _ & _ & ->).
    now exists ss, ds.
Qed.


(** X12: every error [Read] returns comes from one of its three steps and
    tells how far the receiver was filled.  A descriptor error is
    "error reading sector #k" with [k] counted from 1: [k - 1] descriptors
    were appended and [Data] is untouched.  A positioning error is
    "error moving reader position to 0x0100": all [SectorsCount]
    descriptors were appended and [Data] is untouched.  A payload error
    is "error reading sector #k" with [k] counted from 0: all descriptors
    and [k] payloads were appended. *)
Theorem Read_errors_classified (t t' : TrackInfo) (r r' : storage.Reader)
  (err : error) :
  dsk.TrackInformation_Read t r = Some ((t', Some err), r') ->
  (exists (e : error) (k : Z),
      err = Wrapf e "error reading sector #%d" k
      /\ 1 <= k <= dsk.SectorsCount t'
      /\ Z.of_nat (length (dsk.Sectors t'))
         = Z.of_nat (length (dsk.Sectors t)) + (k - 1)
      /\ dsk.Data t' = dsk.Data t)
  \/ (exists e : error,
         err = Wrap e "error moving reader position to 0x0100"
         /\ Z.of_nat (length (dsk.Sectors t'))
            = Z.of_nat (length (dsk.Sectors t)) + dsk.SectorsCount t'
         /\ dsk.Data t' = dsk.Data t)
  \/ (exists (e : error) (k : Z),
         err = Wrapf e "error reading sector #%d" k
         /\ 0 <= k < Z.of_nat (length (dsk.Sectors t'))
         /\ Z.of_nat (length (dsk.Sectors t'))
            = Z.of_nat (length (dsk.Sectors t)) + dsk.SectorsCount t'
         /\ Z.of_nat (length (dsk.Data t'))
            = Z.of_nat (length (dsk.Data t)) + k).
Proof.
  intros E. unfold dsk.TrackInformation_Read in E.
  apply bind_Some in E as (t1 & r1 & Eh & Eb).
  apply readHeader_inv in Eh as (Hs & Hd & Hc & _).
  apply readBody_err in Eb
    as [(ss & e & Hlt & -> & ->) | [(ss & e & Hlen & -> & ->)
                                   | (ss & ds & e & Hlen & Hlt & -> & ->)]];
    cbn [dsk.set_Sectors dsk.set_Data dsk.Sectors dsk.Data dsk.SectorsCount];
    rewrite <- ?Hs, <- ?Hd.
  - left. exists e, (Z.of_nat (length ss) + 1).
    split; [reflexivity|]. rewrite length_app. repeat split; lia.
  - right. left. exists e.
    split; [reflexivity|]. rewrite length_app. split; [lia | reflexivity].
  - right. right. exists e, (Z.of_nat (length ds)).
    split; [reflexivity|]. rewrite !length_app in *. repeat split; lia.
Qed.

(** X13: whatever the outcome, [Read] leaves a well-formed record: the
    three fixed arrays keep their sizes, the six numeric fields are
    [uint8]s, and [Sectors] and [Data] are extensions of what the
    receiver held (nothing is ever removed or overwritten). *)
Theorem Read_keeps_record_well_formed (t t' : TrackInfo)
  (r r' : storage.Reader) (oerr : option error) :
  dsk.TrackInformation_Read t r = Some ((t', oerr), r') ->
  (length (dsk.Identifier t') = length (dsk.Identifier t)
   /\ length (dsk.Unused1 t') = length (dsk.Unused1 t)
   /\ length (dsk.Unused2 t') = length (dsk.Unused2 t))
  /\ (0 <= dsk.Track t' < 256 /\ 0 <= dsk.Side t' < 256
      /\ 0 <= dsk.SectorSize t' < 256 /\ 0 <= dsk.SectorsCount t' < 256
      /\ 0 <= dsk.GapLength t' < 256 /\ 0 <= dsk.FillerByte t' < 256)
  /\ exists (ss : list SectorInformation) (ds : list (list byte)),
       dsk.Sectors t' = dsk.Sectors t ++ ss
       /\ dsk.Data t' = dsk.Data t ++ ds.
Proof.
  intros E. unfold dsk.TrackInformation_Read in E.
  apply bind_Some in E as (t1 & r1 & Eh & Eb).
  pose proof (readHeader_fields _ _ _ _ Eh) as (Harr & Hrange).
  apply readHeader_inv in Eh as (Hs & Hd & _ & _).
  apply readBody_appends in Eb as (ss & ds & ->).
  cbn. split; [exact Harr|]. split; [exact Hrange|].
  exists ss, ds. now rewrite <- Hs, <- Hd.
Qed.

(** *** The data address *)

Lemma Discard_app (bs tail : list byte) (p n : Z) :
  n = Z.of_nat (length bs) ->
  storage.Discard n (storage.mkReader p (bs ++ tail))
  = Some ((n, None), storage.mkReader (p + n) tail).
Proof.
  intros ->. unfold storage.Discard, storage.remaining, storage.advance.
  cbn [storage.rest storage.pos].
  rewrite (proj2 (Z.ltb_ge _ 0)) by lia.
  rewrite (proj2 (Z.leb_le _ _)) by (rewrite length_app; lia).
  now rewrite Nat2Z.id, drop_app_length.
Qed.

(** An error-free [setBufferToDataAddress] has discarded the remainder up
    to the data address, which was not negative. *)
Lemma setBufferToDataAddress_ok (t : TrackInfo) (r r' : storage.Reader) :
  0 <= dsk.sectorInformationBlockSize < 2 ^ 32 ->
  0 <= dsk.SectorsCount t < 256 ->
  dsk.setBufferToDataAddress t r = Some (None, r') ->
  dsk.trackInformationBlockSize
  + dsk.SectorsCount t * dsk.sectorInformationBlockSize
  <= dsk.sectorDataStartAddress
  /\ storage.pos r'
     = storage.pos r
       + (dsk.sectorDataStartAddress
          - (dsk.trackInformationBlockSize
             + dsk.SectorsCount t * dsk.sectorInformationBlockSize)).
Proof.
  intros Hs Hc. unfold dsk.setBufferToDataAddress, storage.bind.
  rewrite discard_count_exact by assumption.
  unfold storage.Discard, storage.advance, storage.ret.
  destruct (Z.ltb_spec
              (dsk.sectorDataStartAddress
               - (dsk.trackInformationBlockSize
                  + dsk.SectorsCount t * dsk.sectorInformationBlockSize)) 0)
    as [Hneg|Hpos]; [discriminate|].
  destruct (_ <=? storage.remaining r) eqn:Hle; [|discriminate].
  intros [= <-]. cbn [storage.pos]. split; lia.
Qed.

Lemma descriptor_chain_pos (r r' : storage.Reader)
  (ss : list SectorInformation) :
  (forall (ra rb : storage.Reader) (s : SectorInformation),
      dsk.SectorInformation_Read dsk.SectorInformation_zero ra
      = Some ((s, None), rb) ->
      storage.pos rb = storage.pos ra + dsk.sectorInformationBlockSize) ->
  dsk.descriptor_chain r ss r' ->
  storage.pos r'
  = storage.pos r + Z.of_nat (length ss) * dsk.sectorInformationBlockSize.
Proof.
  intros Hsize. induction 1 as [r|r s r1 ss r2 E Hc IH].
  - cbn. lia.
  - rewrite IH, (Hsize _ _ _ E). cbn [length]. lia.
Qed.

(** X14: when every descriptor read takes [sectorInformationBlockSize]
    bytes, an error-free [Read] has started the payload reads exactly
    [0x100] bytes after the start of the track header, and the header
    and the descriptor table fit below that address. *)
Theorem Read_data_starts_at_0x100 (t t' : TrackInfo) (r r' : storage.Reader) :
  0 <= dsk.sectorInformationBlockSize < 2 ^ 32 ->
  (forall (ra rb : storage.Reader) (s : SectorInformation),
      dsk.SectorInformation_Read dsk.SectorInformation_zero ra
      = Some ((s, None), rb) ->
      storage.pos rb = storage.pos ra + dsk.sectorInformationBlockSize) ->
  dsk.TrackInformation_Read t r = Some ((t', None), r') ->
  dsk.trackInformationBlockSize
  + dsk.SectorsCount t' * dsk.sectorInformationBlockSize
  <= dsk.sectorDataStartAddress
  /\ exists (r3 : storage.Reader) (ds : list (list byte)),
       storage.pos r3 = storage.pos r + dsk.sectorDataStartAddress
       /\ dsk.payload_chain r3 (dsk.Sectors t') ds r'
       /\ dsk.Data t' = dsk.Data t ++ ds.
Proof.
  intros Hs Hsize E. unfold dsk.TrackInformation_Read in E.
  apply bind_Some in E as (t1 & r1 & Eh & Eb).
  apply readHeader_inv in Eh as (_ & Hd & Hc & Hp1).
  apply readBody_ok in Eb as (ss & ds & r2 & r3 & Hlen & Hch & Eset & Hp & ->).
  apply (descriptor_chain_pos _ _ _ Hsize) in Hch.
  apply setBufferToDataAddress_ok in Eset as (Hfit & Hp3);
    [| exact Hs | exact Hc].
  cbn [dsk.set_Sectors dsk.set_Data dsk.SectorsCount dsk.Sectors dsk.Data] in *.
  split; [exact Hfit|].
  exists r3, ds. split; [|split; [exact Hp | now rewrite Hd]].
  unfold dsk.sectorDataStartAddress, dsk.trackInformationBlockSize in *.
  rewrite Hp3, Hch, Hp1, Hlen. rewrite Z2Nat.id by lia. lia.
Qed.

(** X15: a track that declares no sector.  On a receiver without sectors,
    [Read] takes the 24 header bytes, discards the 232 bytes up to the
    data address and returns without error, 256 bytes further, with
    [Sectors] and [Data] as they were. *)
Theorem Read_empty_track (t : TrackInfo) (ident un1 un2 : list byte)
  (track side size gap filler : byte) (pad tail : list byte) (p : Z) :
  length (dsk.Identifier t) = 13%nat ->
  length (dsk.Unused1 t) = 3%nat ->
  length (dsk.Unused2 t) = 2%nat ->
  dsk.Sectors t = [] ->
  length ident = 13%nat -> length un1 = 3%nat -> length un2 = 2%nat ->
  length pad = 232%nat ->
  dsk.TrackInformation_Read t
    (storage.mkReader p
       (ident ++ un1 ++ [track; side] ++ un2
        ++ [size; x00; gap; filler] ++ pad ++ tail))
  = Some (({| dsk.Identifier := ident; dsk.Unused1 := un1;
              dsk.Track := u8 track; dsk.Side := u8 side;
              dsk.Unused2 := un2;
              dsk.SectorSize := u8 size; dsk.SectorsCount := 0;
              dsk.GapLength := u8 gap; dsk.FillerByte := u8 filler;
              dsk.Sectors := []; dsk.Data := dsk.Data t |}, None),
          storage.mkReader (p + 256) tail).
Proof.
  intros Ha1 Ha2 Ha3 Hnil Hid Hu1 Hu2 Hpad.
  unfold dsk.TrackInformation_Read. unfold storage.bind at 1.
  rewrite readHeader_spec by assumption.
  rewrite !copy_same_length by congruence. rewrite Hnil.
  unfold dsk.TrackInformation_readBody.
  unfold storage.bind at 1.
  unfold dsk.readSectorInformationBlocks.
  cbn [dsk.SectorsCount]. change (Z.to_nat (u8 x00)) with O.
  cbn [dsk.readSectorInformationBlocks_loop]. unfold storage.ret at 1.
  unfold storage.bind at 1, dsk.setBufferToDataAddress.
  cbn [dsk.SectorsCount].
  change (int_wrap
            (dsk.sectorDataStartAddress
             - int_wrap (dsk.trackInformationBlockSize
                         + int_wrap (u8 x00 * dsk.sectorInformationBlockSize))))
    with 232.
  unfold storage.bind at 1. rewrite Discard_app by lia.
  unfold storage.ret at 1. unfold storage.bind, dsk.readSectorData.
  cbn [dsk.Sectors dsk.readSectorData_loop]. unfold storage.ret.
  do 3 f_equal. lia.
Qed.


End TrackFurther.

(** *** On the DSK sector descriptor *)

Lemma dsk_sector_Read_advances (ra rb : storage.Reader)
  (s0 s : dsk_sector.SectorInformation) :
  dsk_sector.SectorInformation_Read s0 ra = Some ((s, None), rb) ->
  storage.pos rb = storage.pos ra + dsk_sector.sectorInformationBlockSize.
Proof.
  unfold dsk_sector.SectorInformation_Read.
  destruct (_ <? _); [discriminate|]. intros E.
  apply bind_Some in E as (? & r1 & E1 & E).
  apply bind_Some in E as (? & r2 & E2 & E).
  apply bind_Some in E as (? & r3 & E3 & E).
  apply bind_Some in E as (? & r4 & E4 & E).
  apply bind_Some in E as (? & r5 & E5 & E).
  apply bind_Some in E as (? & r6 & E6 & E).
  apply bind_Some in E as (? & r7 & E7 & E).
  injection E as _ <-.
  apply ReadByte_reader in E1 as (_ & P1).
  apply ReadByte_reader in E2 as (_ & P2).
  apply ReadByte_reader in E3 as (_ & P3).
  apply ReadByte_reader in E4 as (_ & P4).
  apply ReadByte_reader in E5 as (_ & P5).
  apply ReadByte_reader in E6 as (_ & P6).
  apply ReadNextBytes_reader in E7 as (_ & _ & _ & P7).
  unfold dsk_sector.sectorInformationBlockSize. lia.
Qed.


Lemma Read_errors_classified_witness :
  let t : dsk.TrackInformation dsk_sector.SectorInformation :=
    dsk.TrackInformation_zero in
  let t' := dsk.set_Sectors (samples.after_header x02) [samples.sector xc1] in
  let err := Wrapf ErrUnexpectedEOF "error reading sector #%d" 2 in
  let r := storage.mkReader 0 samples.track_2_short_descriptor in
  let r' := storage.mkReader 32 [x01; x00; xc2] in
  dsk.TrackInformation_Read t r = Some ((t', Some err), r')
  /\ ((exists (e : error) (k : Z),
          err = Wrapf e "error reading sector #%d" k
          /\ 1 <= k <= dsk.SectorsCount t'
          /\ Z.of_nat (length (dsk.Sectors t'))
             = Z.of_nat (length (dsk.Sectors t)) + (k - 1)
          /\ dsk.Data t' = dsk.Data t)
      \/ (exists e : error,
             err = Wrap e "error moving reader position to 0x0100"
             /\ Z.of_nat (length (dsk.Sectors t'))
                = Z.of_nat (length (dsk.Sectors t)) + dsk.SectorsCount t'
             /\ dsk.Data t' = dsk.Data t)
      \/ (exists (e : error) (k : Z),
             err = Wrapf e "error reading sector #%d" k
             /\ 0 <= k < Z.of_nat (length (dsk.Sectors t'))
             /\ Z.of_nat (length (dsk.Sectors t'))
                = Z.of_nat (length (dsk.Sectors t)) + dsk.SectorsCount t'
             /\ Z.of_nat (length (dsk.Data t'))
                = Z.of_nat (length (dsk.Data t)) + k)).
Proof.
  intros t t' err r r'. split; [vm_compute; reflexivity|].
  apply (Read_errors_classified t t' r r' err). vm_compute. reflexivity.
Defined.

Lemma Read_keeps_record_well_formed_witness :
  let t : dsk.TrackInformation dsk_sector.SectorInformation :=
    dsk.TrackInformation_zero in
  let t' := dsk.set_Sectors (samples.after_header x02) [samples.sector xc1] in
  let oerr := Some (Wrapf ErrUnexpectedEOF "error reading sector #%d" 2) in
  let r := storage.mkReader 0 samples.track_2_short_descriptor in
  let r' := storage.mkReader 32 [x01; x00; xc2] in
  dsk.TrackInformation_Read t r = Some ((t', oerr), r')
  /\ (length (dsk.Identifier t') = length (dsk.Identifier t)
      /\ length (dsk.Unused1 t') = length (dsk.Unused1 t)
      /\ length (dsk.Unused2 t') = length (dsk.Unused2 t))
  /\ (0 <= dsk.Track t' < 256 /\ 0 <= dsk.Side t' < 256
      /\ 0 <= dsk.SectorSize t' < 256 /\ 0 <= dsk.SectorsCount t' < 256
      /\ 0 <= dsk.GapLength t' < 256 /\ 0 <= dsk.FillerByte t' < 256)
  /\ exists (ss : list dsk_sector.SectorInformation) (ds : list (list byte)),
       dsk.Sectors t' = dsk.Sectors t ++ ss
       /\ dsk.Data t' = dsk.Data t ++ ds.
Proof.
  intros t t' oerr r r'. split; [vm_compute; reflexivity|].
  apply (Read_keeps_record_well_formed t t' r r' oerr).
  vm_compute. reflexivity.
Defined.

Lemma Read_data_starts_at_0x100_witness :
  let t : dsk.TrackInformation dsk_sector.SectorInformation :=
    dsk.TrackInformation_zero in
  let t' := samples.track_2_decoded in
  let r := storage.mkReader 0 samples.track_2 in
  let r' := storage.mkReader 512 [x99] in
  (0 <= @dsk.sectorInformationBlockSize _ dsk_sector.dsk_SectorOps < 2 ^ 32
   /\ (forall (ra rb : storage.Reader) (s : dsk_sector.SectorInformation),
          dsk.SectorInformation_Read dsk.SectorInformation_zero ra
          = Some ((s, None), rb) ->
          storage.pos rb
          = storage.pos ra
            + @dsk.sectorInformationBlockSize _ dsk_sector.dsk_SectorOps)
   /\ dsk.TrackInformation_Read t r = Some ((t', None), r'))
  /\ dsk.trackInformationBlockSize
     + dsk.SectorsCount t'
       * @dsk.sectorInformationBlockSize _ dsk_sector.dsk_SectorOps
     <= dsk.sectorDataStartAddress
  /\ exists (r3 : storage.Reader) (ds : list (list byte)),
       storage.pos r3 = storage.pos r + dsk.sectorDataStartAddress
       /\ dsk.payload_chain r3 (dsk.Sectors t') ds r'
       /\ dsk.Data t' = dsk.Data t ++ ds.
Proof.
  intros t t' r r'.
  assert (Hs : 0 <= @dsk.sectorInformationBlockSize _
                      dsk_sector.dsk_SectorOps < 2 ^ 32)
    by (vm_compute; split; [discriminate | reflexivity]).
  assert (Hadv : forall (ra rb : storage.Reader)
                        (s : dsk_sector.SectorInformation),
             dsk.SectorInformation_Read dsk.SectorInformation_zero ra
             = Some ((s, None), rb) ->
             storage.pos rb
             = storage.pos ra
               + @dsk.sectorInformationBlockSize _ dsk_sector.dsk_SectorOps)
    by (intros ra rb s; apply dsk_sector_Read_advances).
  assert (E : dsk.TrackInformation_Read t r = Some ((t', None), r'))
    by (vm_compute; reflexivity).
  split; [exact (conj Hs (conj Hadv E))|].
  exact (Read_data_starts_at_0x100 t t' r r' Hs Hadv E).
Defined.

Lemma Read_empty_track_witness :
  let t : dsk.TrackInformation dsk_sector.SectorInformation :=
    dsk.TrackInformation_zero in
  let ident :=
    [x54; x72; x61; x63; x6b; x2d; x49; x6e; x66; x6f; x0d; x0a; x00] in
  (length (dsk.Identifier t) = 13%nat
   /\ length (dsk.Unused1 t) = 3%nat
   /\ length (dsk.Unused2 t) = 2%nat
   /\ dsk.Sectors t = []
   /\ length ident = 13%nat
   /\ length [x00; x00; x00] = 3%nat
   /\ length [x00; x00] = 2%nat
   /\ length (replicate 232 x00) = 232%nat)
  /\ dsk.TrackInformation_Read t (storage.mkReader 0 samples.track_0)
     = Some ((samples.after_header x00, None),
             storage.mkReader 256 [xaa; xbb]).
Proof.
  intros t ident. split; [repeat split; reflexivity|].
  apply (Read_empty_track t ident [x00; x00; x00] [x00; x00]
           x01 x00 x00 x4e xe5 (replicate 232 x00) [xaa; xbb] 0);
    reflexivity.
Defined.

